(** * On-demand deep-zoom tiling: the TileGenerator class of src/tileGenerator.js

    The development follows the source file top to bottom: the pyramid
    arithmetic of [calculateLevels] and [generateTile], then the file
    system and codec effects of [generateTileOnDemand] and [processUpload].

    Number model.  JavaScript numbers are IEEE doubles.  Dimensions, tile
    coordinates and levels are integers, modelled in [Z]; the scale factor
    is a power of two, possibly below one, modelled in [Q], with exact
    multiplication and division, [Math.ceil] as [Qceiling] and [Math.floor]
    as [Qfloor].  Doubles compute these products and quotients exactly as
    long as the integers stay below 2^53.  [Math.ceil (Math.log2 q)] is
    modelled by its mathematical value for a positive rational [q]; for a
    non-positive argument JavaScript yields -Infinity or NaN, which lies
    outside the model, so the statements about levels assume positive
    dimensions and a positive tile size.

    Host model.  Directories are lists of named entries in listing order;
    each regular file carries what sharp reads from it.  File names stand
    for paths inside the three directories the class manages, so an image
    id is assumed to contain no path separator.  Which file operations and
    renderings fail is decided by the host, a parameter of every method. *)

From Stdlib Require Import ZArith QArith Qround Qpower Lia Lqa.
From stdpp Require Import gmap strings list pretty.

Local Open Scope Z_scope.

(** ** Math helpers *)

(** [Math.ceil (Math.log2 q)] for a positive rational [q]. *)
Definition ceil_log2 (q : Q) : Z :=
  if Qle_bool 1 q then Z.log2_up (Qceiling q)
  else - Z.log2 (Qfloor (/ q)).

(** [Math.pow (2, e)] for an integer exponent. *)
Definition pow2 (e : Z) : Q := Qpower 2 e.

(** ** calculateLevels (lines 84-87) *)

Definition calculateLevels (width height tileSize : Z) : Z :=
  let maxDimension := Z.max width height in
  ceil_log2 (inject_Z maxDimension / inject_Z tileSize) + 1.

(** ** generateTile, arithmetic part (lines 101-141) *)

(** Line 102-103: the scale factor of a level. *)
Definition scale (originalWidth originalHeight tileSize level : Z) : Q :=
  let maxLevels := calculateLevels originalWidth originalHeight tileSize in
  pow2 (maxLevels - level - 1).

(** Lines 106-107: [Math.ceil (original / scale)]. *)
Definition scaledDim (original : Z) (s : Q) : Z :=
  Qceiling (inject_Z original / s).

Definition scaledWidth (originalWidth originalHeight tileSize level : Z) : Z :=
  scaledDim originalWidth (scale originalWidth originalHeight tileSize level).

Definition scaledHeight (originalWidth originalHeight tileSize level : Z) : Z :=
  scaledDim originalHeight (scale originalWidth originalHeight tileSize level).

Record Region : Type := mkRegion
  { rleft : Z; rtop : Z; rwidth : Z; rheight : Z }.

(** Lines 110-118: position and size of the tile at the scaled level, or
    [None] where the source returns [null]. *)
Definition tileRegion (originalWidth originalHeight tileSize level x y : Z)
  : option Region :=
  let sW := scaledWidth originalWidth originalHeight tileSize level in
  let sH := scaledHeight originalWidth originalHeight tileSize level in
  let left := x * tileSize in
  let top := y * tileSize in
  let width := Z.min tileSize (sW - left) in
  let height := Z.min tileSize (sH - top) in
  if (left >=? sW) || (top >=? sH) then None
  else Some (mkRegion left top width height).

(** Lines 125-141: the region handed to [extract], in source pixels. *)
Definition extractRegion (originalWidth originalHeight : Z) (s : Q) (r : Region)
  : Region :=
  let originalLeft := Qfloor (inject_Z (rleft r) * s) in
  let originalTop := Qfloor (inject_Z (rtop r) * s) in
  let originalWidth_region := Qceiling (inject_Z (rwidth r) * s) in
  let originalHeight_region := Qceiling (inject_Z (rheight r) * s) in
  mkRegion originalLeft originalTop
    (Z.min originalWidth_region (originalWidth - originalLeft))
    (Z.min originalHeight_region (originalHeight - originalTop)).

(** ** The host: files, the metadata cache and the sharp codec

    The class works on three directories below [uploadsDir]: the originals,
    the multer temp directory and the tile tree.  A source image is
    addressed by its directory and file name, a tile by the three path
    components below [tilesDir]. *)

Module SharpMetadata.
(** What [sharp(...).metadata()] resolves to for a readable image. *)
Record t : Type := mk
  { width : Z; height : Z; format : string; space : string; channels : Z;
    depth : string; hasAlpha : bool; pages : option Z }.
End SharpMetadata.

Module Metadata.
(** The object built by [getImageMetadata] (lines 47-56). *)
Record t : Type := mk
  { width : Z; height : Z; format : string; space : string; channels : Z;
    depth : string; hasAlpha : bool; pages : Z }.
End Metadata.

Module ImageInfo.
(** The object returned by [processUpload] (lines 240-249). *)
Record t : Type := mk
  { id : string; width : Z; height : Z; tileSize : Z; format : string;
    levels : Z; originalFormat : string; uploadedAt : string }.
End ImageInfo.

(** A directory entry: a regular file, with what sharp reads from it
    ([None] for a file sharp rejects), or a subdirectory. *)
Inductive entry : Type :=
| File (content : option SharpMetadata.t)
| Dir.

Definition directory : Type := list (string * entry).

Inductive dirname : Type := original | temp.

Record path : Type := mkPath { pdir : dirname; pname : string }.

(** A tile file below [tilesDir]: image directory, level directory, file. *)
Definition tilePath : Type := (string * string * string)%type.

(** One entry per call into sharp. *)
Inductive SharpCall : Type :=
| MetadataCall (imagePath : path)
| TileCall (imagePath : path) (extract : Region) (resizeWidth resizeHeight : Z)
    (outputPath : tilePath).

(** The state the class reads and writes. *)
Record World : Type := mkWorld
  { originalDir : directory;
    tempDir : directory;
    tilesDir : gset tilePath;
    metadataCache : gmap string Metadata.t;
    sharpCalls : list SharpCall }.

(** What the host decides: which file operations and renderings fail, and
    the clock read by [new Date()]. *)
Record Host : Type := mkHost
  { rename_fails : path -> path -> bool;
    readdir_fails : dirname -> bool;
    stat_fails : path -> bool;
    unlink_fails : path -> bool;
    mkdir_fails : tilePath -> bool;
    toFile_fails : path -> tilePath -> bool;
    now : string }.

Inductive error : Type :=
| ImageNotFound (imageId : string)
| SharpError (imagePath : path)
| FsError (operation : string).

(** A promise that has settled: rejected with an error or fulfilled. *)
Inductive outcome (A : Type) : Type :=
| Threw (e : error)
| Returned (a : A).
Arguments Threw {A} e.
Arguments Returned {A} a.

(** An async method: it runs from a world and settles in a world. *)
Definition M (A : Type) : Type := World -> outcome A * World.

Definition ret {A} (a : A) : M A := fun w => (Returned a, w).

Definition throw {A} (e : error) : M A := fun w => (Threw e, w).

Definition bind {A B} (m : M A) (k : A -> M B) : M B :=
  fun w => match m w with
           | (Returned a, w') => k a w'
           | (Threw e, w') => (Threw e, w')
           end.

(** [try { m } catch (error) { h }]. *)
Definition try_catch {A} (m : M A) (h : error -> M A) : M A :=
  fun w => match m w with
           | (Threw e, w') => h e w'
           | r => r
           end.

Declare Scope async_scope.
Delimit Scope async_scope with async.
Notation "x <- m ;; k" := (bind m (fun x => k))
  (at level 100, m at next level, right associativity) : async_scope.
Notation "m ;;; k" := (bind m (fun _ => k))
  (at level 100, right associativity) : async_scope.
Local Open Scope async_scope.

(** [for (const a of l) { body }]. *)
Fixpoint for_of {A} (l : list A) (body : A -> M unit) : M unit :=
  match l with
  | [] => ret tt
  | a :: l' => body a ;;; for_of l' body
  end.

(** *** Directories *)

Definition dir_of (w : World) (d : dirname) : directory :=
  match d with original => originalDir w | temp => tempDir w end.

Definition set_dir (d : dirname) (dir : directory) (w : World) : World :=
  match d with
  | original => mkWorld dir (tempDir w) (tilesDir w) (metadataCache w) (sharpCalls w)
  | temp => mkWorld (originalDir w) dir (tilesDir w) (metadataCache w) (sharpCalls w)
  end.

Definition lookup_entry (dir : directory) (name : string) : option entry :=
  snd <$> List.find (fun ne => String.eqb (fst ne) name) dir.

Definition remove_entry (dir : directory) (name : string) : directory :=
  List.filter (fun ne => negb (String.eqb (fst ne) name)) dir.

Definition read_entry (w : World) (p : path) : option entry :=
  lookup_entry (dir_of w (pdir p)) (pname p).

(** *** File system calls *)

Section Class.
Context (host : Host).

(** [fs.access (p)]: resolves when the entry exists. *)
Definition fs_access (p : path) : M unit :=
  fun w => match read_entry w p with
           | Some _ => (Returned tt, w)
           | None => (Threw (FsError "access"), w)
           end.

Definition fs_access_tile (p : tilePath) : M unit :=
  fun w => if decide (p ∈ tilesDir w) then (Returned tt, w)
           else (Threw (FsError "access"), w).

(** [fs.readdir (dir)]: the names, in directory order. *)
Definition fs_readdir (d : dirname) : M (list string) :=
  fun w => if readdir_fails host d then (Threw (FsError "readdir"), w)
           else (Returned (List.map fst (dir_of w d)), w).

(** [fs.stat (p)]. *)
Definition fs_stat (p : path) : M entry :=
  fun w => if stat_fails host p then (Threw (FsError "stat"), w)
           else match read_entry w p with
                | Some e => (Returned e, w)
                | None => (Threw (FsError "stat"), w)
                end.

Definition isFile (e : entry) : bool :=
  match e with File _ => true | Dir => false end.

(** [fs.unlink (p)]. *)
Definition fs_unlink (p : path) : M unit :=
  fun w => if unlink_fails host p then (Threw (FsError "unlink"), w)
           else match read_entry w p with
                | Some _ =>
                    (Returned tt,
                     set_dir (pdir p) (remove_entry (dir_of w (pdir p)) (pname p)) w)
                | None => (Threw (FsError "unlink"), w)
                end.

(** [fs.rename (src, dst)]: the entry leaves [src] and replaces whatever
    [dst] named; a failed rename changes nothing. *)
Definition fs_rename (src dst : path) : M unit :=
  fun w => if rename_fails host src dst then (Threw (FsError "rename"), w)
           else match read_entry w src with
                | Some e =>
                    let w1 := set_dir (pdir src)
                                (remove_entry (dir_of w (pdir src)) (pname src)) w in
                    let w2 := set_dir (pdir dst)
                                (remove_entry (dir_of w1 (pdir dst)) (pname dst)
                                   ++ [(pname dst, e)]) w1 in
                    (Returned tt, w2)
                | None => (Threw (FsError "rename"), w)
                end.

(** [fs.mkdir (path.dirname (outputPath), { recursive: true })]: the tile
    tree keeps no record of its directories. *)
Definition fs_mkdir_for (outputPath : tilePath) : M unit :=
  fun w => if mkdir_fails host outputPath then (Threw (FsError "mkdir"), w)
           else (Returned tt, w).

(** *** Calls into sharp *)

Definition log_call (c : SharpCall) (w : World) : World :=
  mkWorld (originalDir w) (tempDir w) (tilesDir w) (metadataCache w)
    (sharpCalls w ++ [c]).

(** [sharp (imagePath, ...).metadata ()]. *)
Definition sharp_metadata (imagePath : path) : M SharpMetadata.t :=
  fun w => let w' := log_call (MetadataCall imagePath) w in
           match read_entry w imagePath with
           | Some (File (Some md)) => (Returned md, w')
           | _ => (Threw (SharpError imagePath), w')
           end.

(** [sharp (imagePath, ...).extract (r).resize (w, h, ...).jpeg (...)
    .toFile (outputPath)]. *)
Definition sharp_tile (imagePath : path) (extract : Region)
    (resizeWidth resizeHeight : Z) (outputPath : tilePath) : M unit :=
  fun w => let w' := log_call
                       (TileCall imagePath extract resizeWidth resizeHeight outputPath) w in
           if toFile_fails host imagePath outputPath
           then (Threw (SharpError imagePath), w')
           else (Returned tt,
                 mkWorld (originalDir w') (tempDir w') ({[outputPath]} ∪ tilesDir w')
                   (metadataCache w') (sharpCalls w')).

(** *** path.extname *)

(** Index of the last ["."] of a file name. *)
Fixpoint last_dot (s : string) (i : nat) (acc : option nat) : option nat :=
  match s with
  | EmptyString => acc
  | String c s' =>
      last_dot s' (S i) (if Ascii.eqb c (Ascii.ascii_of_nat 46) then Some i else acc)
  end.

(** [path.extname] of a file name without separators: from the last dot
    to the end; empty when there is no dot, when the only dot leads the
    name, and for [".."]. *)
Definition extname (name : string) : string :=
  match last_dot name 0 None with
  | None | Some O => ""
  | Some i =>
      if String.eqb name ".." then ""
      else String.substring i (String.length name - i) name
  end.

(** ** getImageMetadata (lines 39-57) *)

Definition getImageMetadata (imagePath : path) : M Metadata.t :=
  metadata <- sharp_metadata imagePath ;;
  ret (Metadata.mk
         (SharpMetadata.width metadata)
         (SharpMetadata.height metadata)
         (SharpMetadata.format metadata)
         (SharpMetadata.space metadata)
         (SharpMetadata.channels metadata)
         (SharpMetadata.depth metadata)
         (SharpMetadata.hasAlpha metadata)
         (match SharpMetadata.pages metadata with
          | Some n => if n =? 0 then 1 else n
          | None => 1
          end)).

(** ** getCachedMetadata (lines 65-75) *)

Definition cache_set (imageId : string) (metadata : Metadata.t) : M unit :=
  fun w => (Returned tt,
            mkWorld (originalDir w) (tempDir w) (tilesDir w)
              (<[imageId := metadata]> (metadataCache w)) (sharpCalls w)).

Definition getCachedMetadata (imageId : string) (imagePath : path) : M Metadata.t :=
  fun w => match metadataCache w !! imageId with
           | Some metadata => ret metadata w
           | None =>
               (metadata <- getImageMetadata imagePath ;;
                cache_set imageId metadata ;;;
                ret metadata) w
           end.

(** ** generateTile (lines 100-155) *)

Definition generateTile (imagePath : path) (outputPath : tilePath)
    (level x y tileSize originalWidth originalHeight : Z) : M (option tilePath) :=
  match tileRegion originalWidth originalHeight tileSize level x y with
  | None => ret None
  | Some r =>
      fs_mkdir_for outputPath ;;;
      sharp_tile imagePath
        (extractRegion originalWidth originalHeight
           (scale originalWidth originalHeight tileSize level) r)
        (rwidth r) (rheight r) outputPath ;;;
      ret (Some outputPath)
  end.

(** ** generateTileOnDemand (lines 165-205) *)

(** Lines 167-178: find the image file. *)
Definition findImageFile (imageId : string) : M path :=
  let imagePath := mkPath original (imageId +:+ ".tif") in
  try_catch
    (fs_access imagePath ;;; ret imagePath)
    (fun _ =>
       files <- fs_readdir original ;;
       match List.find (fun f => String.prefix imageId f) files with
       | None => throw (ImageNotFound imageId)
       | Some imageFile => ret (mkPath original imageFile)
       end).

(** Line 185: [path.join (tilesDir, imageId, String (level), x_y.jpg)]. *)
Definition tilePathOf (imageId : string) (level x y : Z) : tilePath :=
  (imageId, pretty level, pretty x +:+ "_" +:+ pretty y +:+ ".jpg").

Definition generateTileOnDemand (imageId : string) (level x y : Z) : M tilePath :=
  imagePath <- findImageFile imageId ;;
  metadata <- getCachedMetadata imageId imagePath ;;
  let tileSize := 256 in
  let tilePath := tilePathOf imageId level x y in
  try_catch
    (fs_access_tile tilePath ;;; ret tilePath)
    (fun _ =>
       generateTile imagePath tilePath level x y tileSize
         (Metadata.width metadata) (Metadata.height metadata) ;;;
       ret tilePath).

(** ** processUpload (lines 215-250) *)

(** Lines 225-237: the temp directory sweep; any failure ends it. *)
Definition cleanTemp : M unit :=
  try_catch
    (tempFiles <- fs_readdir temp ;;
     for_of tempFiles (fun file =>
       let filePath := mkPath temp file in
       stat <- fs_stat filePath ;;
       if isFile stat then fs_unlink filePath else ret tt))
    (fun _ => ret tt).

Definition processUpload (imageId : string) (originalPath : path) : M ImageInfo.t :=
  metadata <- getImageMetadata originalPath ;;
  let ext := extname (pname originalPath) in
  let newPath := mkPath original (imageId +:+ ext) in
  fs_rename originalPath newPath ;;;
  cleanTemp ;;;
  ret (ImageInfo.mk imageId
         (Metadata.width metadata) (Metadata.height metadata)
         256 "jpeg"
         (calculateLevels (Metadata.width metadata) (Metadata.height metadata) 256)
         (Metadata.format metadata)
         (now host)).

End Class.

(** ** listImages (lines 256-288) *)

Module ImageRecord.
(** The objects pushed onto [images] (lines 271-277). *)
Record t : Type := mk
  { id : string; width : Z; height : Z; originalFormat : string;
    uploadedAt : string }.
End ImageRecord.

(** [path.parse (file).name] of a file name without separators: the name
    without its [path.extname]. *)
Definition parse_name (file : string) : string :=
  match last_dot file 0 None with
  | None | Some O => file
  | Some i =>
      if String.eqb file ".." then file
      else String.substring 0 i file
  end.

(** A [for ... of] loop that carries a local array. *)
Fixpoint for_of_with {A B} (l : list A) (acc : B) (body : A -> B -> M B) : M B :=
  match l with
  | [] => ret acc
  | a :: l' => acc' <- body a acc ;; for_of_with l' acc' body
  end.

Section Listing.
Context (host : Host).
(** [stat.birthtime.toISOString ()] as the file system reports it. *)
Context (birthtime : path -> string).

(** Lines 262-281: one round of the loop over the originals. *)
Definition listImages_step (file : string) (images : list ImageRecord.t)
  : M (list ImageRecord.t) :=
  if String.prefix "." file then ret images
  else
    try_catch
      (let imageId := parse_name file in
       let imagePath := mkPath original file in
       metadata <- getImageMetadata imagePath ;;
       stat <- fs_stat host imagePath ;;
       ret (images ++
            [ImageRecord.mk imageId
               (Metadata.width metadata) (Metadata.height metadata)
               (Metadata.format metadata) (birthtime imagePath)]))
      (fun _ => ret images).

Definition listImages : M (list ImageRecord.t) :=
  try_catch
    (files <- fs_readdir host original ;;
     for_of_with files [] listImages_step)
    (fun _ => ret []).

End Listing.

(** ** The tile route of server.js (lines 78-104), request parsing *)

(** Line 83: [imageIdWithFiles.replace (/_files$/, '')]. *)
Definition stripFilesSuffix (imageIdWithFiles : string) : string :=
  let n := String.length imageIdWithFiles in
  if (6 <=? n)%nat &&
     String.eqb (String.substring (n - 6) 6 imageIdWithFiles) "_files"
  then String.substring 0 (n - 6) imageIdWithFiles
  else imageIdWithFiles.

(** The class [\d]. *)
Definition is_digit (c : Ascii.ascii) : bool :=
  (48 <=? Ascii.nat_of_ascii c)%nat && (Ascii.nat_of_ascii c <=? 57)%nat.

(** The longest run of digits at the head of a string, and what follows. *)
Fixpoint span_digits (s : string) : string * string :=
  match s with
  | EmptyString => (EmptyString, EmptyString)
  | String c s' =>
      if is_digit c
      then let (digits, rest) := span_digits s' in (String c digits, rest)
      else (EmptyString, s)
  end.

(** [parseInt] of a string of decimal digits, from an accumulator. *)
Fixpoint parseInt_digits (acc : Z) (digits : string) : Z :=
  match digits with
  | EmptyString => acc
  | String c digits' =>
      parseInt_digits (acc * 10 + (Z.of_nat (Ascii.nat_of_ascii c) - 48)) digits'
  end.

(** Lines 86-92: [tile.match (/^(\d+)_(\d+)\.(jpg|jpeg)$/)] and the two
    [parseInt]; [None] where the route answers 400. *)
Definition parseTileName (tile : string) : option (Z * Z) :=
  let (xs, after_x) := span_digits tile in
  match xs, after_x with
  | String _ _, String sep after_sep =>
      if Ascii.eqb sep (Ascii.ascii_of_nat 95) then
        let (ys, suffix) := span_digits after_sep in
        match ys with
        | String _ _ =>
            if String.eqb suffix ".jpg" || String.eqb suffix ".jpeg"
            then Some (parseInt_digits 0 xs, parseInt_digits 0 ys)
            else None
        | EmptyString => None
        end
      else None
  | _, _ => None
  end.

(** ** Vocabulary of the specification *)


(** The ratio whose logarithm decides the depth of the pyramid. *)
Definition dimension_ratio (width height tileSize : Z) : Q :=
  inject_Z (Z.max width height) / inject_Z tileSize.

(** The pixel (px, py) of the scaled level lies in the region. *)
Definition region_contains (r : Region) (px py : Z) : Prop :=
  rleft r <= px < rleft r + rwidth r /\ rtop r <= py < rtop r + rheight r.

(** ** Pure readings of the effectful methods *)

(** The outcome of [findImageFile] as a function of the originals. *)
Definition findImageFile_pure (host : Host) (imageId : string) (dir : directory)
  : outcome path :=
  match lookup_entry dir (imageId +:+ ".tif") with
  | Some _ => Returned (mkPath original (imageId +:+ ".tif"))
  | None =>
      if readdir_fails host original then Threw (FsError "readdir")
      else match List.find (fun f => String.prefix imageId f) (List.map fst dir) with
           | None => Threw (ImageNotFound imageId)
           | Some imageFile => Returned (mkPath original imageFile)
           end
  end.

(** Two worlds with the same files and the same cache. *)
Definition same_store (w w' : World) : Prop :=
  originalDir w' = originalDir w /\ tempDir w' = tempDir w /\
  tilesDir w' = tilesDir w /\ metadataCache w' = metadataCache w.

(** The body of the sweep loop of [cleanTemp] (lines 229-233). *)
Definition sweep_step (host : Host) (file : string) : M unit :=
  bind (fs_stat host (mkPath temp file))
    (fun stat => if isFile stat then fs_unlink host (mkPath temp file) else ret tt).



(** Only the temp directory differs. *)
Definition temp_only (w w' : World) : Prop :=
  originalDir w' = originalDir w /\ tilesDir w' = tilesDir w /\
  metadataCache w' = metadataCache w /\ sharpCalls w' = sharpCalls w.

(** The record [listImages] builds for one file name, if any: the name is
    not hidden, sharp reads the file and [fs.stat] succeeds. *)
Definition listed_record (host : Host) (birthtime : path -> string)
    (dir : directory) (file : string) : option ImageRecord.t :=
  if String.prefix "." file then None
  else match lookup_entry dir file with
       | Some (File (Some raw)) =>
           if stat_fails host (mkPath original file) then None
           else Some (ImageRecord.mk (parse_name file)
                        (SharpMetadata.width raw) (SharpMetadata.height raw)
                        (SharpMetadata.format raw)
                        (birthtime (mkPath original file)))
       | _ => None
       end.

(** The sharp calls of one listing: one per name that is not hidden. *)
Definition listing_calls (files : list string) : list SharpCall :=
  List.map (fun file => MetadataCall (mkPath original file))
    (List.filter (fun file => negb (String.prefix "." file)) files).

(** The world after some more calls into sharp. *)
Definition log_calls (calls : list SharpCall) (w : World) : World :=
  mkWorld (originalDir w) (tempDir w) (tilesDir w) (metadataCache w)
    (sharpCalls w ++ calls).

(** The string has no ["."]. *)
Fixpoint no_dot (s : string) : bool :=
  match s with
  | EmptyString => true
  | String c s' => negb (Ascii.eqb c (Ascii.ascii_of_nat 46)) && no_dot s'
  end.

(** Every character is a decimal digit. *)
Fixpoint all_digits (s : string) : bool :=
  match s with
  | EmptyString => true
  | String c s' => is_digit c && all_digits s'
  end.


(** ** Sample hosts and worlds *)

(** A 10000 x 8000 TIFF as sharp reads it. *)
Definition tiff_10000_8000 : SharpMetadata.t :=
  SharpMetadata.mk 10000 8000 "tiff" "srgb" 3 "uchar" false None.

(** A host on which no operation fails. *)
Definition quiet_host : Host :=
  mkHost (fun _ _ => false) (fun _ => false) (fun _ => false) (fun _ => false)
    (fun _ => false) (fun _ _ => false) "2024-01-01T00:00:00.000Z".

(** One uploaded image, nothing cached. *)
Definition world_one_image : World :=
  mkWorld [("img.tif", File (Some tiff_10000_8000))] [] ∅ ∅ [].



(** A host on which the move into the originals fails. *)
Definition rename_failing_host : Host :=
  mkHost (fun _ _ => true) (fun _ => false) (fun _ => false) (fun _ => false)
    (fun _ => false) (fun _ _ => false) "2024-01-01T00:00:00.000Z".


(** A finished upload [up.tif] waiting in the temp directory next to the
    files of two other uploads and a subdirectory. *)
Definition world_pending_uploads : World :=
  mkWorld []
    [("up.tif", File (Some tiff_10000_8000));
     ("a.tif", File (Some tiff_10000_8000));
     ("b.tif", File None);
     ("parts", Dir)]
    ∅ ∅ [].

(** A file sharp cannot read, waiting in the temp directory. *)
Definition world_corrupt_upload : World :=
  mkWorld [] [("bad.tif", File None)] ∅ ∅ [].

(** An original stored with the extension [.tiff]. *)
Definition world_tiff_extension : World :=
  mkWorld [("notes.txt", File None); ("pic.tiff", File (Some tiff_10000_8000))]
    [] ∅ ∅ [].

(** The image, its metadata in the cache and tile (6, 0, 0) on disk. *)
Definition world_tile_cached : World :=
  mkWorld [("img.tif", File (Some tiff_10000_8000))] []
    {[ ("img", "6", "0_0.jpg") ]}
    {[ "img" := Metadata.mk 10000 8000 "tiff" "srgb" 3 "uchar" false 1 ]} [].

(** * Proofs *)

(** ** Facts about the math helpers *)

Lemma pow2_pos (e : Z) : (0 < pow2 e)%Q.
Proof. unfold pow2. apply Qpower_0_lt. reflexivity. Qed.

Lemma pow2_nonneg_Z (e : Z) : 0 <= e -> pow2 e == inject_Z (2 ^ e).
Proof.
  intros He. unfold pow2. rewrite Zpower_Qpower by exact He. reflexivity.
Qed.

Lemma pow2_opp (e : Z) : pow2 (- e) == / pow2 e.
Proof. unfold pow2. apply Qpower_opp. Qed.


Lemma Qinv_le_swap (a b : Q) : (0 < a)%Q -> (0 < b)%Q -> (a <= / b)%Q -> (b <= / a)%Q.
Proof.
  intros Ha Hb Hab.
  apply Qle_shift_inv_l; [exact Ha|].
  apply (Qmult_le_r _ _ b) in Hab; [|exact Hb].
  rewrite (Qmult_comm (/ b)), Qmult_inv_r in Hab.
  - rewrite Qmult_comm. exact Hab.
  - intros E. rewrite E in Hb. discriminate.
Qed.

Lemma Qinv_lt_swap (a b : Q) : (0 < a)%Q -> (0 < b)%Q -> (/ b < a)%Q -> (/ a < b)%Q.
Proof.
  intros Ha Hb Hab.
  apply Qlt_shift_inv_r; [exact Ha|].
  apply (Qmult_lt_r _ _ b) in Hab; [|exact Hb].
  rewrite (Qmult_comm (/ b)), Qmult_inv_r in Hab.
  - rewrite Qmult_comm. exact Hab.
  - intros E. rewrite E in Hb. discriminate.
Qed.

Lemma inject_Z_lt_pred (a : Z) (q : Q) :
  (inject_Z a < q)%Q -> forall b, b <= a -> (inject_Z b < q)%Q.
Proof.
  intros H b Hb. eapply Qle_lt_trans; [|exact H].
  rewrite <- Zle_Qle. exact Hb.
Qed.

(** [ceil_log2 q] is the exponent [k] with 2^(k-1) < q <= 2^k. *)
Lemma ceil_log2_spec (q : Q) :
  (0 < q)%Q -> (pow2 (ceil_log2 q - 1) < q)%Q /\ (q <= pow2 (ceil_log2 q))%Q.
Proof.
  intros Hq. unfold ceil_log2.
  destruct (Qle_bool 1 q) eqn:E.
  - apply Qle_bool_iff in E.
    pose proof (Qle_ceiling q) as Hup.
    pose proof (Qceiling_lt q) as Hlo.
    assert (Hc : 1 <= Qceiling q).
    { rewrite Zle_Qle. eapply Qle_trans; [exact E|exact Hup]. }
    destruct (Z.eq_dec (Qceiling q) 1) as [E1|N1].
    + rewrite E1. change (Z.log2_up 1) with 0. split.
      * eapply Qlt_le_trans; [|exact E]. reflexivity.
      * rewrite E1 in Hup. exact Hup.
    + assert (Hc1 : 1 < Qceiling q) by lia.
      pose proof (Z.log2_up_spec _ Hc1) as [Hl Hu].
      pose proof (Z.log2_up_pos _ Hc1) as Hpos.
      split.
      * rewrite pow2_nonneg_Z by lia.
        apply (inject_Z_lt_pred _ _ Hlo).
        replace (Z.log2_up (Qceiling q) - 1) with (Z.pred (Z.log2_up (Qceiling q))) by lia.
        lia.
      * rewrite pow2_nonneg_Z by lia.
        eapply Qle_trans; [exact Hup|]. rewrite <- Zle_Qle. exact Hu.
  - assert (Hlt : (q < 1)%Q).
    { apply Qnot_le_lt. intros H. apply Qle_bool_iff in H. congruence. }
    assert (Hinv : (0 < / q)%Q) by (apply Qinv_lt_0_compat; exact Hq).
    pose proof (Qfloor_le (/ q)) as Hfl.
    pose proof (Qlt_floor (/ q)) as Hfu.
    assert (Hone : (1 <= / q)%Q).
    { apply Qle_shift_inv_l; [exact Hq|]. rewrite Qmult_1_l. apply Qlt_le_weak. exact Hlt. }
    assert (Hf : 1 <= Qfloor (/ q)).
    { change 1 with (Qfloor 1). apply Qfloor_resp_le. exact Hone. }
    assert (Hf0 : 0 < Qfloor (/ q)) by lia.
    pose proof (Z.log2_spec (Qfloor (/ q)) Hf0) as [Hl Hu].
    pose proof (Z.log2_nonneg (Qfloor (/ q))) as Hnn.
    set (j := Z.log2 (Qfloor (/ q))) in *. clearbody j.
    split.
    + replace (- j - 1) with (- (j + 1)) by lia.
      rewrite pow2_opp. apply Qinv_lt_swap; [apply pow2_pos|exact Hq|].
      rewrite pow2_nonneg_Z by lia.
      eapply Qlt_le_trans; [exact Hfu|]. rewrite <- Zle_Qle.
      replace (j + 1) with (Z.succ j) by lia. lia.
    + rewrite pow2_opp. 
      assert (H2 : (pow2 j <= / q)%Q).
      { rewrite pow2_nonneg_Z by lia. eapply Qle_trans; [|exact Hfl].
        rewrite <- Zle_Qle. exact Hl. }
      apply Qinv_le_swap; [apply pow2_pos|exact Hq|exact H2].
Qed.

Lemma pow2_add (a b : Z) : pow2 (a + b) == pow2 a * pow2 b.
Proof. unfold pow2. apply Qpower_plus. discriminate. Qed.

Lemma pow2_lt_mono (j k : Z) : j < k -> (pow2 j < pow2 k)%Q.
Proof.
  intros Hjk. replace k with (j + (k - j)) by lia.
  rewrite pow2_add, (pow2_nonneg_Z (k - j)) by lia.
  rewrite <- (Qmult_1_r (pow2 j)) at 1.
  apply Qmult_lt_l; [apply pow2_pos|].
  change 1%Q with (inject_Z 1). rewrite <- Zlt_Qlt.
  apply Z.pow_gt_1; lia.
Qed.

Lemma pow2_le_mono (j k : Z) : j <= k -> (pow2 j <= pow2 k)%Q.
Proof.
  intros Hjk. destruct (Z.eq_dec j k) as [->|N]; [apply Qle_refl|].
  apply Qlt_le_weak, pow2_lt_mono. lia.
Qed.


Lemma ratio_pos (n d : Z) : 0 < n -> 0 < d -> (0 < inject_Z n / inject_Z d)%Q.
Proof.
  intros Hn Hd. apply Qlt_shift_div_l.
  - change 0%Q with (inject_Z 0). rewrite <- Zlt_Qlt. exact Hd.
  - rewrite Qmult_0_l. change 0%Q with (inject_Z 0). rewrite <- Zlt_Qlt. exact Hn.
Qed.

Lemma scaledDim_one (d : Z) : scaledDim d 1 = d.
Proof.
  unfold scaledDim.
  assert (E : inject_Z d / 1 == inject_Z d) by (field).
  rewrite E. apply Qceiling_Z.
Qed.



Lemma dimension_ratio_pos (width height tileSize : Z) :
  0 < width -> 0 < height -> 0 < tileSize ->
  (0 < dimension_ratio width height tileSize)%Q.
Proof. intros Hw Hh Ht. apply ratio_pos; lia. Qed.


Example calculateLevels_10000_8000 : calculateLevels 10000 8000 256 = 7.
Proof. reflexivity. Qed.

Example scaled_level0_10000_8000 :
  scaledWidth 10000 8000 256 0 = 157 /\ scaledHeight 10000 8000 256 0 = 125.
Proof. split; reflexivity. Qed.

Example tile_6_0_0_source_region :
  extractRegion 10000 8000 (scale 10000 8000 256 6)
    (mkRegion 0 0 256 256) = mkRegion 0 0 256 256.
Proof. reflexivity. Qed.

(** ** Pyramid geometry *)



(** C4. At the finest level, [calculateLevels - 1], the scale is exactly 1
    and the scaled width and height are the original width and height. *)
Theorem finest_level_round_trip (width height tileSize : Z) :
  0 < width -> 0 < height -> 0 < tileSize ->
  let maxLevel := calculateLevels width height tileSize - 1 in
  scale width height tileSize maxLevel = 1%Q /\
  scaledDim width (scale width height tileSize maxLevel) = width /\
  scaledDim height (scale width height tileSize maxLevel) = height /\
  scaledWidth width height tileSize maxLevel = width /\
  scaledHeight width height tileSize maxLevel = height.
Proof.
  intros _ _ _ maxLevel.
  assert (E : scale width height tileSize maxLevel = 1%Q).
  { unfold scale, maxLevel. cbv zeta.
    replace (calculateLevels width height tileSize
             - (calculateLevels width height tileSize - 1) - 1) with 0 by lia.
    reflexivity. }
  unfold scaledWidth, scaledHeight. rewrite E.
  repeat split; apply scaledDim_one.
Qed.

Lemma finest_level_round_trip_witness :
  scale 10000 8000 256 6 = 1%Q /\
  scaledDim 10000 (scale 10000 8000 256 6) = 10000 /\
  scaledDim 8000 (scale 10000 8000 256 6) = 8000 /\
  scaledWidth 10000 8000 256 6 = 10000 /\
  scaledHeight 10000 8000 256 6 = 8000.
Proof.
  apply (finest_level_round_trip 10000 8000 256); lia.
Defined.

(** C5. [tileRegion] has exactly two outcomes.  When the tile starts inside
    the scaled level (left < scaledWidth and top < scaledHeight) it is the
    region at (left, top) = (x * tileSize, y * tileSize) of width
    min (tileSize, scaledWidth - left) and height
    min (tileSize, scaledHeight - top); otherwise (left >= scaledWidth or
    top >= scaledHeight) there is no region. *)
Theorem tileRegion_cases (originalWidth originalHeight tileSize level x y : Z) :
  let sW := scaledWidth originalWidth originalHeight tileSize level in
  let sH := scaledHeight originalWidth originalHeight tileSize level in
  let left := x * tileSize in
  let top := y * tileSize in
  (left < sW /\ top < sH ->
   tileRegion originalWidth originalHeight tileSize level x y =
     Some (mkRegion left top (Z.min tileSize (sW - left)) (Z.min tileSize (sH - top)))) /\
  (left >= sW \/ top >= sH ->
   tileRegion originalWidth originalHeight tileSize level x y = None) /\
  ((left < sW /\ top < sH) \/ (left >= sW \/ top >= sH)).
Proof.
  intros sW sH left top. unfold tileRegion. cbv zeta.
  fold sW sH left top.
  destruct (Z.geb_spec left sW) as [Hl|Hl], (Z.geb_spec top sH) as [Ht|Ht];
    cbn [orb]; repeat split; intros; try reflexivity; lia.
Qed.

Lemma tileRegion_cases_witness :
  tileRegion 10000 8000 256 0 0 0 = Some (mkRegion 0 0 157 125) /\
  tileRegion 10000 8000 256 0 1 0 = None.
Proof.
  split.
  - apply (proj1 (tileRegion_cases 10000 8000 256 0 0 0)). vm_compute. split; reflexivity.
  - apply (proj1 (proj2 (tileRegion_cases 10000 8000 256 0 1 0))). left. vm_compute. discriminate.
Defined.



(** ** Directories *)

Lemma lookup_entry_None (dir : directory) (name : string) :
  lookup_entry dir name = None <-> ~ In name (List.map fst dir).
Proof.
  unfold lookup_entry. induction dir as [|[n e] dir IH]; cbn.
  - tauto.
  - destruct (String.eqb_spec n name) as [->|Hne]; cbn.
    + split; [discriminate|]. intros H. exfalso. apply H. left. reflexivity.
    + rewrite IH. tauto.
Qed.

Lemma lookup_entry_Some_In (dir : directory) (name : string) (e : entry) :
  lookup_entry dir name = Some e -> In (name, e) dir.
Proof.
  unfold lookup_entry. induction dir as [|[n e'] dir IH]; cbn.
  - discriminate.
  - destruct (String.eqb_spec n name) as [->|Hne]; cbn.
    + intros [= ->]. left. reflexivity.
    + intros H. right. apply IH. exact H.
Qed.


(** ** Image resolution *)

Lemma findImageFile_eq (host : Host) (imageId : string) (w : World) :
  findImageFile host imageId w = (findImageFile_pure host imageId (originalDir w), w).
Proof.
  unfold findImageFile, findImageFile_pure, try_catch, bind, fs_access, read_entry.
  cbn [pdir pname dir_of].
  destruct (lookup_entry (originalDir w) (imageId +:+ ".tif")); [reflexivity|].
  unfold fs_readdir. destruct (readdir_fails host original); [reflexivity|].
  cbn [dir_of].
  destruct (List.find _ _); reflexivity.
Qed.

(** C7. Resolving an image id goes in two steps, without changing anything:
    when the file named imageId.tif exists in the originals it is the
    answer; otherwise the directory is scanned and the first file whose name
    starts with the image id is the answer; the call fails with "Image not
    found" exactly when the exact name is absent and no file name starts
    with the image id.  (The directory listing itself is assumed to
    succeed.) *)
Theorem findImageFile_two_steps (host : Host) (imageId : string) (w : World) :
  readdir_fails host original = false ->
  let names := List.map fst (originalDir w) in
  let exact := imageId +:+ ".tif" in
  (In exact names ->
   findImageFile host imageId w = (Returned (mkPath original exact), w)) /\
  (~ In exact names ->
   forall imageFile,
     List.find (fun f => String.prefix imageId f) names = Some imageFile ->
     findImageFile host imageId w = (Returned (mkPath original imageFile), w)) /\
  (forall e w',
     findImageFile host imageId w = (Threw e, w') <->
     e = ImageNotFound imageId /\ w' = w /\
     ~ In exact names /\
     forall f, In f names -> String.prefix imageId f = false).
Proof.
  intros Hrd names exact. rewrite findImageFile_eq.
  unfold findImageFile_pure. rewrite Hrd. fold exact. fold names.
  destruct (lookup_entry (originalDir w) exact) as [en|] eqn:Hex.
  - assert (Hin : In exact names).
    { destruct (in_dec String.string_dec exact names) as [H|H]; [exact H|].
      apply lookup_entry_None in H. congruence. }
    split; [reflexivity|]. split; [contradiction|].
    intros e w'. split; [discriminate|]. intros (_ & _ & Hn & _). contradiction.
  - assert (Hnin : ~ In exact names) by (apply lookup_entry_None; exact Hex).
    split; [contradiction|].
    destruct (List.find (fun f => String.prefix imageId f) names) as [f|] eqn:Hfind.
    + split; [intros _ imageFile [= ->]; reflexivity|].
      intros e w'. split; [discriminate|].
      intros (_ & _ & _ & Hall).
      apply find_some in Hfind as [Hf Hp]. rewrite (Hall f Hf) in Hp. discriminate.
    + split; [intros _ imageFile; discriminate|].
      intros e w'. split.
      * intros [= <- <-]. repeat split; try assumption.
        intros f Hf. exact (find_none _ _ Hfind f Hf).
      * intros (-> & -> & _). reflexivity.
Qed.

Lemma findImageFile_two_steps_witness :
  findImageFile quiet_host "img" world_one_image =
    (Returned (mkPath original "img.tif"), world_one_image) /\
  findImageFile quiet_host "pic" world_tiff_extension =
    (Returned (mkPath original "pic.tiff"), world_tiff_extension) /\
  findImageFile quiet_host "scan" world_tiff_extension =
    (Threw (ImageNotFound "scan"), world_tiff_extension).
Proof.
  split; [|split].
  - apply (proj1 (findImageFile_two_steps quiet_host "img" world_one_image eq_refl)).
    vm_compute. left. reflexivity.
  - apply (proj1 (proj2 (findImageFile_two_steps quiet_host "pic" world_tiff_extension
                           eq_refl))).
    + vm_compute. intros [H|[H|[]]]; discriminate H.
    + reflexivity.
  - apply (proj2 (proj2 (findImageFile_two_steps quiet_host "scan" world_tiff_extension
                           eq_refl))).
    split; [reflexivity|]. split; [reflexivity|]. split.
    + vm_compute. intros [H|[H|[]]]; discriminate H.
    + intros f [<-|[<-|[]]]; reflexivity.
Defined.

(** ** Tiles on demand *)

Lemma generateTile_out_of_bounds (host : Host) (imagePath : path)
    (outputPath : tilePath) (level x y tileSize originalWidth originalHeight : Z)
    (w : World) :
  tileRegion originalWidth originalHeight tileSize level x y = None ->
  generateTile host imagePath outputPath level x y tileSize
    originalWidth originalHeight w = (Returned None, w).
Proof. intros H. unfold generateTile. rewrite H. reflexivity. Qed.

(** For a tile with a region, the one call into sharp carries the region
    computed by [extractRegion] and the size of the scaled region. *)
Lemma generateTile_sharp_call (host : Host) (imagePath : path)
    (outputPath : tilePath) (level x y tileSize originalWidth originalHeight : Z)
    (w : World) (r : Region) :
  tileRegion originalWidth originalHeight tileSize level x y = Some r ->
  mkdir_fails host outputPath = false ->
  sharpCalls (snd (generateTile host imagePath outputPath level x y tileSize
                     originalWidth originalHeight w)) =
  sharpCalls w ++
  [TileCall imagePath
     (extractRegion originalWidth originalHeight
        (scale originalWidth originalHeight tileSize level) r)
     (rwidth r) (rheight r) outputPath].
Proof.
  intros Hr Hmk. unfold generateTile. rewrite Hr.
  unfold bind, fs_mkdir_for, sharp_tile. rewrite Hmk.
  destruct (toFile_fails host imagePath outputPath); reflexivity.
Qed.



Lemma getCachedMetadata_returned (imageId : string) (imagePath : path)
    (metadata : Metadata.t) (w w' : World) :
  getCachedMetadata imageId imagePath w = (Returned metadata, w') ->
  metadataCache w' !! imageId = Some metadata /\
  originalDir w' = originalDir w /\ tilesDir w' = tilesDir w /\
  (sharpCalls w' = sharpCalls w \/
   sharpCalls w' = sharpCalls w ++ [MetadataCall imagePath]).
Proof.
  unfold getCachedMetadata.
  destruct (metadataCache w !! imageId) as [md|] eqn:Hc.
  - intros [= <- <-]. repeat split; [exact Hc|]. left. reflexivity.
  - unfold bind, getImageMetadata, bind, sharp_metadata, cache_set, ret.
    destruct (read_entry w imagePath) as [[[raw|]|]|]; try discriminate.
    intros [= <- <-]. cbn. rewrite lookup_insert_eq.
    repeat split. right. reflexivity.
Qed.

(** The body of [generateTileOnDemand], one await at a time. *)
Lemma generateTileOnDemand_eq (host : Host) (imageId : string) (level x y : Z)
    (w : World) :
  generateTileOnDemand host imageId level x y w =
  match findImageFile_pure host imageId (originalDir w) with
  | Threw e => (Threw e, w)
  | Returned imagePath =>
      match getCachedMetadata imageId imagePath w with
      | (Threw e, w1) => (Threw e, w1)
      | (Returned metadata, w1) =>
          if decide (tilePathOf imageId level x y ∈ tilesDir w1)
          then (Returned (tilePathOf imageId level x y), w1)
          else
            match generateTile host imagePath (tilePathOf imageId level x y)
                    level x y 256
                    (Metadata.width metadata) (Metadata.height metadata) w1 with
            | (Threw e, w2) => (Threw e, w2)
            | (Returned _, w2) => (Returned (tilePathOf imageId level x y), w2)
            end
      end
  end.
Proof.
  unfold generateTileOnDemand. unfold bind at 1. rewrite findImageFile_eq.
  destruct (findImageFile_pure host imageId (originalDir w)) as [e|imagePath];
    [reflexivity|].
  unfold bind at 1.
  destruct (getCachedMetadata imageId imagePath w) as [[e|metadata] w1];
    [reflexivity|].
  cbv zeta. unfold try_catch, bind at 1, fs_access_tile.
  destruct (decide (tilePathOf imageId level x y ∈ tilesDir w1)); [reflexivity|].
  unfold bind.
  destruct (generateTile _ _ _ _ _ _ _ _ _ w1) as [[e|r] w2]; reflexivity.
Qed.

(** Whenever the image resolves, its metadata is obtained and the tile is
    neither on disk nor inside the scaled level, [generateTileOnDemand]
    fulfils with the tile path and leaves the tile tree as it was. *)
Lemma generateTileOnDemand_ignores_null (host : Host) (imageId : string)
    (level x y : Z) (w w1 : World) (imagePath : path) (metadata : Metadata.t) :
  findImageFile host imageId w = (Returned imagePath, w) ->
  getCachedMetadata imageId imagePath w = (Returned metadata, w1) ->
  tilePathOf imageId level x y ∉ tilesDir w ->
  tileRegion (Metadata.width metadata) (Metadata.height metadata) 256 level x y = None ->
  generateTileOnDemand host imageId level x y w =
    (Returned (tilePathOf imageId level x y), w1) /\
  tilesDir w1 = tilesDir w.
Proof.
  intros Hfind Hmd Hmiss Hnone.
  rewrite generateTileOnDemand_eq.
  rewrite findImageFile_eq in Hfind. injection Hfind as Hfind. rewrite Hfind, Hmd.
  apply getCachedMetadata_returned in Hmd as (_ & _ & Ht & _).
  split; [|exact Ht].
  destruct (decide (tilePathOf imageId level x y ∈ tilesDir w1)) as [Hin|_].
  - rewrite Ht in Hin. contradiction.
  - rewrite (generateTile_out_of_bounds _ _ _ _ _ _ _ _ _ _ Hnone). reflexivity.
Qed.

(** C2, as the code behaves.  For the 10000 x 8000 image, tile (0, 1, 0)
    has no region, since 1 * 256 >= 157, and [generateTile] returns null
    for it without touching the world; yet [generateTileOnDemand] fulfils
    with the tile path instead of failing, and no tile file exists
    afterwards. *)
Theorem generateTileOnDemand_out_of_bounds_returns_path :
  1 * 256 >= scaledWidth 10000 8000 256 0 /\
  tileRegion 10000 8000 256 0 1 0 = None /\
  (forall w,
      generateTile quiet_host (mkPath original "img.tif") ("img", "0", "1_0.jpg")
        0 1 0 256 10000 8000 w = (Returned None, w)) /\
  exists w',
    generateTileOnDemand quiet_host "img" 0 1 0 world_one_image =
      (Returned ("img", "0", "1_0.jpg"), w') /\
    tilesDir w' = ∅.
Proof.
  split; [vm_compute; discriminate|].
  split; [reflexivity|].
  split; [intros w; apply generateTile_out_of_bounds; reflexivity|].
  eexists. split; [vm_compute; reflexivity|reflexivity].
Qed.




(** ** Upload *)



Lemma remove_entry_names (dir : directory) (name n : string) :
  In n (List.map fst (remove_entry dir name)) <->
  n <> name /\ In n (List.map fst dir).
Proof.
  unfold remove_entry. rewrite !in_map_iff. split.
  - intros ([n' e] & <- & Hin). apply filter_In in Hin as [Hin Hb]. cbn in *.
    split.
    + intros ->. rewrite String.eqb_refl in Hb. discriminate.
    + exists (n', e). split; [reflexivity|exact Hin].
  - intros (Hne & [n' e] & <- & Hin). cbn in Hne.
    exists (n', e). split; [reflexivity|]. apply filter_In. split; [exact Hin|].
    cbn. apply negb_true_iff, String.eqb_neq. exact Hne.
Qed.


Lemma sweep_step_frame (host : Host) (file : string) (w w' : World) (r : outcome unit) :
  sweep_step host file w = (r, w') -> temp_only w w'.
Proof.
  unfold sweep_step, bind, fs_stat, fs_unlink, ret, temp_only.
  destruct (stat_fails host _); [intros [= _ <-]; tauto|].
  destruct (read_entry w _) as [e|] eqn:Hread; [|intros [= _ <-]; tauto].
  destruct (isFile e); [|intros [= _ <-]; tauto].
  destruct (unlink_fails host _); [intros [= _ <-]; tauto|].
  rewrite Hread. intros [= _ <-]. cbn. tauto.
Qed.

Lemma for_of_sweep_frame (host : Host) (names : list string) (w w' : World)
    (r : outcome unit) :
  for_of names (sweep_step host) w = (r, w') -> temp_only w w'.
Proof.
  revert w. induction names as [|n names IH]; intros w; cbn.
  - intros [= _ <-]. unfold temp_only. tauto.
  - unfold bind at 1.
    destruct (sweep_step host n w) as [[e|u] w1] eqn:Hstep.
    + intros [= _ <-]. eapply sweep_step_frame. exact Hstep.
    + intros Hrest. apply IH in Hrest. apply sweep_step_frame in Hstep.
      unfold temp_only in *. intuition congruence.
Qed.

Lemma cleanTemp_eq (host : Host) (w : World) :
  cleanTemp host w =
  if readdir_fails host temp then (Returned tt, w)
  else (Returned tt,
        snd (for_of (List.map fst (tempDir w)) (sweep_step host) w)).
Proof.
  unfold cleanTemp, try_catch, bind at 1, fs_readdir.
  destruct (readdir_fails host temp); [reflexivity|].
  cbn [dir_of]. fold (sweep_step host).
  change (fun file : string =>
            bind (fs_stat host (mkPath temp file))
              (fun stat => if isFile stat then fs_unlink host (mkPath temp file) else ret tt))
    with (sweep_step host).
  destruct (for_of _ _ w) as [[e|u] w']; [|destruct u]; reflexivity.
Qed.

(** The sweep is swallowed: [cleanTemp] always fulfils, and touches the
    temp directory only. *)
Lemma cleanTemp_returns (host : Host) (w : World) :
  exists w', cleanTemp host w = (Returned tt, w') /\ temp_only w w'.
Proof.
  rewrite cleanTemp_eq. destruct (readdir_fails host temp).
  - exists w. split; [reflexivity|]. unfold temp_only. tauto.
  - eexists. split; [reflexivity|].
    destruct (for_of _ _ w) as [r w'] eqn:H. cbn.
    eapply for_of_sweep_frame. exact H.
Qed.


Lemma fs_rename_threw (host : Host) (src dst : path) (w w' : World) (e : error) :
  fs_rename host src dst w = (Threw e, w') -> w' = w /\ e = FsError "rename".
Proof.
  unfold fs_rename.
  destruct (rename_fails host src dst); [intros [= <- <-]; split; reflexivity|].
  destruct (read_entry w src); [discriminate|].
  intros [= <- <-]. split; reflexivity.
Qed.


(** The body of [processUpload], one await at a time. *)
Lemma processUpload_eq (host : Host) (imageId : string) (originalPath : path)
    (w : World) :
  processUpload host imageId originalPath w =
  match read_entry w originalPath with
  | Some (File (Some raw)) =>
      bind (fs_rename host originalPath
              (mkPath original (imageId +:+ extname (pname originalPath))))
        (fun _ =>
           bind (cleanTemp host)
             (fun _ =>
                ret (ImageInfo.mk imageId
                       (SharpMetadata.width raw) (SharpMetadata.height raw)
                       256 "jpeg"
                       (calculateLevels (SharpMetadata.width raw)
                          (SharpMetadata.height raw) 256)
                       (SharpMetadata.format raw)
                       (now host))))
        (log_call (MetadataCall originalPath) w)
  | _ => (Threw (SharpError originalPath), log_call (MetadataCall originalPath) w)
  end.
Proof.
  unfold processUpload, bind at 1, getImageMetadata, bind at 1, sharp_metadata.
  destruct (read_entry w originalPath) as [[[raw|]|]|]; reflexivity.
Qed.

(** C8. A failed [processUpload] registers nothing.  When sharp cannot
    read the uploaded file, the call fails with sharp's error before the
    move: the temp directory, the originals, the tile tree and the metadata
    cache are as before.  When the file is readable and the move fails, the
    call fails with the move's error, with the same four unchanged.  In
    general, whenever the call fails, these four are unchanged. *)
Theorem processUpload_failure_atomic (host : Host) (imageId : string)
    (originalPath : path) (w : World) :
  let newPath := mkPath original (imageId +:+ extname (pname originalPath)) in
  ((forall raw, read_entry w originalPath <> Some (File (Some raw))) ->
   exists w',
     processUpload host imageId originalPath w = (Threw (SharpError originalPath), w') /\
     same_store w w') /\
  (forall raw,
      read_entry w originalPath = Some (File (Some raw)) ->
      rename_fails host originalPath newPath = true ->
      exists w',
        processUpload host imageId originalPath w = (Threw (FsError "rename"), w') /\
        same_store w w') /\
  (forall e w',
      processUpload host imageId originalPath w = (Threw e, w') ->
      same_store w w').
Proof.
  intros newPath.
  set (w0 := log_call (MetadataCall originalPath) w).
  assert (Hw0 : same_store w w0) by (unfold same_store; cbn; tauto).
  split; [|split].
  - intros Hbad. exists w0. split; [|exact Hw0].
    rewrite processUpload_eq. fold w0.
    destruct (read_entry w originalPath) as [[[raw|]|]|] eqn:Hread; try reflexivity.
    exfalso. apply (Hbad raw). reflexivity.
  - intros raw Hread Hfail. exists w0. split; [|exact Hw0].
    rewrite processUpload_eq, Hread. fold newPath w0.
    unfold bind at 1, fs_rename. rewrite Hfail. reflexivity.
  - intros e w'. rewrite processUpload_eq. fold newPath w0.
    destruct (read_entry w originalPath) as [[[raw|]|]|];
      try (intros [= _ <-]; exact Hw0).
    unfold bind at 1.
    destruct (fs_rename host originalPath newPath w0) as [[e1|u] w1] eqn:Hmv.
    + intros [= _ <-]. apply fs_rename_threw in Hmv as [-> _]. exact Hw0.
    + unfold bind at 1.
      destruct (cleanTemp_returns host w1) as (w2 & Hclean & _). rewrite Hclean.
      discriminate.
Qed.

Lemma processUpload_failure_atomic_witness :
  (exists w',
      processUpload quiet_host "u1" (mkPath temp "bad.tif") world_corrupt_upload =
        (Threw (SharpError (mkPath temp "bad.tif")), w') /\
      same_store world_corrupt_upload w') /\
  (exists w',
      processUpload rename_failing_host "u1" (mkPath temp "up.tif") world_pending_uploads =
        (Threw (FsError "rename"), w') /\
      same_store world_pending_uploads w').
Proof.
  split.
  - apply (proj1 (processUpload_failure_atomic quiet_host "u1" (mkPath temp "bad.tif")
                    world_corrupt_upload)).
    intros raw. vm_compute. discriminate.
  - apply (proj1 (proj2 (processUpload_failure_atomic rename_failing_host "u1"
                           (mkPath temp "up.tif") world_pending_uploads))
             tiff_10000_8000).
    + vm_compute. reflexivity.
    + vm_compute. reflexivity.
Defined.




(** * Further properties *)

(** ** More on the pyramid arithmetic *)


Lemma Qfloor_ge_iff (q : Q) (z : Z) : z <= Qfloor q <-> (inject_Z z <= q)%Q.
Proof.
  split.
  - intros H. eapply Qle_trans; [|apply Qfloor_le]. rewrite <- Zle_Qle. exact H.
  - intros H. pose proof (Qlt_floor q) as Hlt.
    assert (Hz : (inject_Z z < inject_Z (Qfloor q + 1))%Q)
      by (eapply Qle_lt_trans; [exact H|exact Hlt]).
    rewrite <- Zlt_Qlt in Hz. lia.
Qed.

Lemma Qdiv_le_iff (a b c : Q) : (0 < c)%Q -> (a / c <= b)%Q <-> (a <= b * c)%Q.
Proof.
  intros Hc. split; intros H.
  - apply (Qmult_le_r _ _ c Hc) in H.
    assert (E : a / c * c == a) by (field; intros E0; rewrite E0 in Hc; discriminate).
    rewrite E in H. exact H.
  - apply Qle_shift_div_r; assumption.
Qed.

Lemma inject_Z_pos (z : Z) : 0 < z -> (0 < inject_Z z)%Q.
Proof. intros H. change 0%Q with (inject_Z 0). rewrite <- Zlt_Qlt. exact H. Qed.


(** X1. For positive dimensions and tile size, [calculateLevels] returns at
    least 1 exactly when the larger dimension exceeds half the tile size;
    for smaller images the level count is zero or negative. *)
Theorem calculateLevels_positive_iff (width height tileSize : Z) :
  0 < width -> 0 < height -> 0 < tileSize ->
  (1 <= calculateLevels width height tileSize <-> tileSize < 2 * Z.max width height).
Proof.
  intros Hw Hh Ht.
  pose proof (dimension_ratio_pos _ _ _ Hw Hh Ht) as Hq.
  destruct (ceil_log2_spec _ Hq) as [Hlo Hup].
  unfold calculateLevels. cbv zeta. fold (dimension_ratio width height tileSize).
  set (k := ceil_log2 (dimension_ratio width height tileSize)) in *.
  assert (Hhalf : (pow2 (-1) < dimension_ratio width height tileSize)%Q <->
                  tileSize < 2 * Z.max width height).
  { unfold dimension_ratio. change (pow2 (-1)) with (1 # 2)%Q.
    pose proof (inject_Z_pos _ Ht) as Htq.
    split.
    - intros H. apply (Qmult_lt_r _ _ (inject_Z tileSize) Htq) in H.
      assert (E : inject_Z (Z.max width height) / inject_Z tileSize * inject_Z tileSize
                  == inject_Z (Z.max width height)).
      { field. intros E0. rewrite E0 in Htq. discriminate. }
      rewrite E in H. rewrite Zlt_Qlt, inject_Z_mult.
      apply (Qmult_lt_l _ _ 2) in H; [|reflexivity].
      eapply Qle_lt_trans; [|exact H].
      assert (E2 : 2 * ((1 # 2) * inject_Z tileSize) == inject_Z tileSize) by ring.
      rewrite E2. apply Qle_refl.
    - intros H. apply Qlt_shift_div_l; [exact Htq|].
      rewrite Zlt_Qlt, inject_Z_mult in H.
      apply (Qmult_lt_l _ _ 2); [reflexivity|].
      assert (E2 : 2 * ((1 # 2) * inject_Z tileSize) == inject_Z tileSize) by ring.
      rewrite E2. exact H. }
  rewrite <- Hhalf. split.
  - intros Hk. eapply Qle_lt_trans; [|exact Hlo]. apply pow2_le_mono. lia.
  - intros H. destruct (Z.lt_ge_cases k 0) as [Hneg|Hge]; [|lia].
    exfalso. apply (Qlt_irrefl (pow2 (-1))).
    eapply Qlt_le_trans; [exact H|].
    eapply Qle_trans; [exact Hup|]. apply pow2_le_mono. lia.
Qed.

Lemma calculateLevels_positive_iff_witness :
  1 <= calculateLevels 10000 8000 256 /\ ~ 1 <= calculateLevels 100 80 256.
Proof.
  split.
  - apply (calculateLevels_positive_iff 10000 8000 256); lia.
  - intros H. apply (calculateLevels_positive_iff 100 80 256) in H; lia.
Defined.





(** X4. A region returned by [tileRegion] for non-negative coordinates is
    never empty and never larger than a tile, and lies inside the scaled
    level. *)
Theorem tileRegion_size_bounds
    (originalWidth originalHeight tileSize level x y : Z) (r : Region) :
  0 < originalWidth -> 0 < originalHeight ->
  0 < tileSize -> 0 <= x -> 0 <= y ->
  tileRegion originalWidth originalHeight tileSize level x y = Some r ->
  1 <= rwidth r <= tileSize /\ 1 <= rheight r <= tileSize /\
  rleft r + rwidth r <= scaledWidth originalWidth originalHeight tileSize level /\
  rtop r + rheight r <= scaledHeight originalWidth originalHeight tileSize level.
Proof.
  intros _ _ Ht Hx Hy. unfold tileRegion. cbv zeta.
  destruct (Z.geb_spec (x * tileSize)
              (scaledWidth originalWidth originalHeight tileSize level)) as [H1|H1];
    [discriminate|].
  destruct (Z.geb_spec (y * tileSize)
              (scaledHeight originalWidth originalHeight tileSize level)) as [H2|H2];
    [discriminate|].
  cbn [orb]. intros [= <-]. cbn [rleft rtop rwidth rheight]. lia.
Qed.

Lemma tileRegion_size_bounds_witness :
  tileRegion 10000 8000 256 6 39 31 = Some (mkRegion 9984 7936 16 64) /\
  1 <= 16 <= 256 /\ 1 <= 64 <= 256 /\
  9984 + 16 <= scaledWidth 10000 8000 256 6 /\
  7936 + 64 <= scaledHeight 10000 8000 256 6.
Proof.
  split; [reflexivity|].
  apply (tileRegion_size_bounds 10000 8000 256 6 39 31 (mkRegion 9984 7936 16 64));
    [lia|lia|lia|lia|lia|reflexivity].
Defined.

(** X5. The tiles of a level cover it without overlap: every pixel of the
    scaled level lies in the region of the tile (px / tileSize,
    py / tileSize), and in the region of no other tile with non-negative
    coordinates. *)
Theorem tiles_partition_level
    (originalWidth originalHeight tileSize level px py : Z) :
  0 < originalWidth -> 0 < originalHeight -> 0 < tileSize ->
  0 <= px < scaledWidth originalWidth originalHeight tileSize level ->
  0 <= py < scaledHeight originalWidth originalHeight tileSize level ->
  (exists r,
      tileRegion originalWidth originalHeight tileSize level
        (px / tileSize) (py / tileSize) = Some r /\
      region_contains r px py) /\
  (forall x y r,
      0 <= x -> 0 <= y ->
      tileRegion originalWidth originalHeight tileSize level x y = Some r ->
      region_contains r px py ->
      x = px / tileSize /\ y = py / tileSize).
Proof.
  intros _ _ Ht Hpx Hpy.
  set (sW := scaledWidth originalWidth originalHeight tileSize level) in *.
  set (sH := scaledHeight originalWidth originalHeight tileSize level) in *.
  pose proof (Z.div_mod px tileSize ltac:(lia)) as Dx.
  pose proof (Z.mod_pos_bound px tileSize Ht) as Mx.
  pose proof (Z.div_mod py tileSize ltac:(lia)) as Dy.
  pose proof (Z.mod_pos_bound py tileSize Ht) as My.
  split.
  - unfold tileRegion. cbv zeta. fold sW sH.
    destruct (Z.geb_spec (px / tileSize * tileSize) sW) as [H1|H1]; [nia|].
    destruct (Z.geb_spec (py / tileSize * tileSize) sH) as [H2|H2]; [nia|].
    cbn [orb]. eexists. split; [reflexivity|].
    unfold region_contains. cbn [rleft rtop rwidth rheight]. nia.
  - intros x y r Hx Hy. unfold tileRegion. cbv zeta. fold sW sH.
    destruct (Z.geb_spec (x * tileSize) sW) as [H1|H1]; [discriminate|].
    destruct (Z.geb_spec (y * tileSize) sH) as [H2|H2]; [discriminate|].
    cbn [orb]. intros [= <-]. unfold region_contains.
    cbn [rleft rtop rwidth rheight]. intros [Hcx Hcy].
    split.
    + apply Z.div_unique with (r := px - x * tileSize); lia.
    + apply Z.div_unique with (r := py - y * tileSize); lia.
Qed.

Lemma tiles_partition_level_witness :
  exists r, tileRegion 10000 8000 256 3 (1100 / 256) (900 / 256) = Some r /\
            region_contains r 1100 900.
Proof.
  apply (proj1 (tiles_partition_level 10000 8000 256 3 1100 900
                  ltac:(lia) ltac:(lia) ltac:(lia)
                  ltac:(vm_compute; split; [discriminate|reflexivity])
                  ltac:(vm_compute; split; [discriminate|reflexivity]))).
Defined.





(** X8. Up to the finest level the scale is the integer S = 2^(maxLevel -
    level), and the source region of a tile is its scaled region times S,
    cut at the image edge: it spans [x * tileSize * S,
    min ((x + 1) * tileSize * S, width)) horizontally and likewise
    vertically, so neighbouring tiles read adjoining, non-overlapping parts
    of the source. *)
Theorem extractRegion_abuts
    (originalWidth originalHeight tileSize level x y : Z) (r : Region) :
  0 < originalWidth -> 0 < originalHeight ->
  0 < tileSize -> 0 <= x -> 0 <= y ->
  level <= calculateLevels originalWidth originalHeight tileSize - 1 ->
  tileRegion originalWidth originalHeight tileSize level x y = Some r ->
  let S := 2 ^ (calculateLevels originalWidth originalHeight tileSize - 1 - level) in
  let e := extractRegion originalWidth originalHeight
             (scale originalWidth originalHeight tileSize level) r in
  rleft e = x * tileSize * S /\
  rleft e + rwidth e = Z.min ((x + 1) * tileSize * S) originalWidth /\
  rtop e = y * tileSize * S /\
  rtop e + rheight e = Z.min ((y + 1) * tileSize * S) originalHeight.
Proof.
  intros _ _ Ht Hx Hy Hlevel Hr S e.
  assert (HS : 0 < S) by (apply Z.pow_pos_nonneg; lia).
  assert (Hs : scale originalWidth originalHeight tileSize level == inject_Z S).
  { unfold scale, S. cbv zeta.
    replace (calculateLevels originalWidth originalHeight tileSize - level - 1)
      with (calculateLevels originalWidth originalHeight tileSize - 1 - level) by lia.
    apply pow2_nonneg_Z. lia. }
  assert (Hfloor : forall l, Qfloor (inject_Z l * scale originalWidth originalHeight tileSize level)
                             = l * S).
  { intros l. rewrite Hs, <- inject_Z_mult. apply Qfloor_Z. }
  assert (Hceil : forall l, Qceiling (inject_Z l * scale originalWidth originalHeight tileSize level)
                            = l * S).
  { intros l. rewrite Hs, <- inject_Z_mult. apply Qceiling_Z. }
  assert (Hdim : forall d, d <= scaledDim d (scale originalWidth originalHeight tileSize level) * S
                           /\ (scaledDim d (scale originalWidth originalHeight tileSize level) - 1) * S < d).
  { intros d. unfold scaledDim.
    pose proof (Qle_ceiling (inject_Z d / scale originalWidth originalHeight tileSize level)) as Hup.
    pose proof (Qceiling_lt (inject_Z d / scale originalWidth originalHeight tileSize level)) as Hlo.
    set (c := Qceiling (inject_Z d / scale originalWidth originalHeight tileSize level)) in *.
    pose proof (inject_Z_pos _ HS) as HSq.
    rewrite Hs in Hup, Hlo. split.
    - apply Qdiv_le_iff in Hup; [|exact HSq].
      rewrite <- inject_Z_mult, <- Zle_Qle in Hup. exact Hup.
    - apply (Qmult_lt_r _ _ (inject_Z S) HSq) in Hlo.
      assert (E : inject_Z d / inject_Z S * inject_Z S == inject_Z d).
      { field. intros E0. rewrite E0 in HSq. discriminate. }
      rewrite E, <- inject_Z_mult, <- Zlt_Qlt in Hlo. exact Hlo. }
  unfold tileRegion in Hr. cbv zeta in Hr. unfold scaledWidth, scaledHeight in Hr.
  destruct (Hdim originalWidth) as [HW1 HW2]. destruct (Hdim originalHeight) as [HH1 HH2].
  set (sW := scaledDim originalWidth (scale originalWidth originalHeight tileSize level)) in *.
  set (sH := scaledDim originalHeight (scale originalWidth originalHeight tileSize level)) in *.
  destruct (Z.geb_spec (x * tileSize) sW) as [H1|H1]; [discriminate|].
  destruct (Z.geb_spec (y * tileSize) sH) as [H2|H2]; [discriminate|].
  cbn [orb] in Hr. injection Hr as <-.
  unfold e, extractRegion. cbn [rleft rtop rwidth rheight].
  rewrite !Hfloor, !Hceil.
  repeat split; nia.
Qed.

Lemma extractRegion_abuts_witness :
  let e := extractRegion 10000 8000 (scale 10000 8000 256 3) (mkRegion 1024 768 226 232) in
  rleft e = 4 * 256 * 2 ^ 3 /\
  rleft e + rwidth e = Z.min ((4 + 1) * 256 * 2 ^ 3) 10000 /\
  rtop e = 3 * 256 * 2 ^ 3 /\
  rtop e + rheight e = Z.min ((3 + 1) * 256 * 2 ^ 3) 8000.
Proof.
  apply (extractRegion_abuts 10000 8000 256 3 4 3); [lia|lia|lia|lia|lia| |reflexivity].
  vm_compute. discriminate.
Defined.

(** ** More on tiles on demand *)

Lemma prefix_append (s t : string) : String.prefix s (s +:+ t) = true.
Proof.
  induction s as [|c s IH].
  - destruct t; reflexivity.
  - change (String c s +:+ t) with (String c (s +:+ t)). cbn [String.prefix].
    destruct (Ascii.ascii_dec c c) as [_|N]; [exact IH|contradiction].
Qed.

Lemma lookup_entry_Some_name (dir : directory) (name : string) (e : entry) :
  lookup_entry dir name = Some e -> In name (List.map fst dir).
Proof.
  intros H. apply lookup_entry_Some_In in H.
  apply (in_map fst) in H. exact H.
Qed.

(** X9. Whatever [findImageFile] resolves to is a file of the originals
    whose name starts with the image id, and the lookup changes nothing. *)
Theorem findImageFile_sound (host : Host) (imageId : string) (w w' : World)
    (imagePath : path) :
  findImageFile host imageId w = (Returned imagePath, w') ->
  w' = w /\ pdir imagePath = original /\
  String.prefix imageId (pname imagePath) = true /\
  In (pname imagePath) (List.map fst (originalDir w)).
Proof.
  rewrite findImageFile_eq. unfold findImageFile_pure.
  destruct (lookup_entry (originalDir w) (imageId +:+ ".tif")) as [e|] eqn:Hex.
  - intros [= <- <-]. cbn. repeat split.
    + apply prefix_append.
    + eapply lookup_entry_Some_name. exact Hex.
  - destruct (readdir_fails host original); [discriminate|].
    destruct (List.find _ _) as [f|] eqn:Hfind; [|discriminate].
    intros [= <- <-]. apply find_some in Hfind as [Hin Hp].
    cbn. repeat split; assumption.
Qed.

Lemma findImageFile_sound_witness :
  String.prefix "pic" "pic.tiff" = true /\
  In "pic.tiff" (List.map fst (originalDir world_tiff_extension)).
Proof.
  apply (findImageFile_sound quiet_host "pic" world_tiff_extension world_tiff_extension
           (mkPath original "pic.tiff")).
  vm_compute. reflexivity.
Defined.

(** What one call of [getCachedMetadata] can change. *)
Lemma getCachedMetadata_effect (imageId : string) (imagePath : path)
    (w w' : World) (r : outcome Metadata.t) :
  getCachedMetadata imageId imagePath w = (r, w') ->
  originalDir w' = originalDir w /\ tempDir w' = tempDir w /\
  tilesDir w' = tilesDir w /\
  (forall metadata, r = Returned metadata ->
                    metadataCache w' !! imageId = Some metadata) /\
  (forall id metadata, metadataCache w !! id = Some metadata ->
                       metadataCache w' !! id = Some metadata) /\
  ((is_Some (metadataCache w !! imageId) /\ sharpCalls w' = sharpCalls w) \/
   (metadataCache w !! imageId = None /\
    sharpCalls w' = sharpCalls w ++ [MetadataCall imagePath])).
Proof.
  unfold getCachedMetadata.
  destruct (metadataCache w !! imageId) as [md|] eqn:Hc.
  - intros [= <- <-]. repeat split; try tauto.
    + intros metadata [= <-]. exact Hc.
    + left. split; [eexists; reflexivity|reflexivity].
  - unfold bind, getImageMetadata, bind, sharp_metadata, cache_set, ret.
    destruct (read_entry w imagePath) as [[[raw|]|]|]; intros [= <- <-]; cbn;
      repeat split; try discriminate; try tauto;
      try (right; split; reflexivity).
    + intros metadata [= <-]. apply lookup_insert_eq.
    + intros id metadata Hid. rewrite lookup_insert_ne; [exact Hid|congruence].
Qed.

(** What one call of [generateTile] can change. *)
Lemma generateTile_effect (host : Host) (imagePath : path)
    (outputPath : tilePath) (level x y tileSize originalWidth originalHeight : Z)
    (w w' : World) (r : outcome (option tilePath)) :
  generateTile host imagePath outputPath level x y tileSize
    originalWidth originalHeight w = (r, w') ->
  originalDir w' = originalDir w /\ tempDir w' = tempDir w /\
  metadataCache w' = metadataCache w /\
  ((tilesDir w' = tilesDir w /\
    (forall p, r = Returned p ->
               tileRegion originalWidth originalHeight tileSize level x y = None)) \/
   (tilesDir w' = {[outputPath]} ∪ tilesDir w /\ r = Returned (Some outputPath))) /\
  (sharpCalls w' = sharpCalls w \/
   exists reg, sharpCalls w' =
               sharpCalls w ++ [TileCall imagePath reg
                                  (Z.min tileSize
                                     (scaledWidth originalWidth originalHeight tileSize level
                                      - x * tileSize))
                                  (Z.min tileSize
                                     (scaledHeight originalWidth originalHeight tileSize level
                                      - y * tileSize))
                                  outputPath]).
Proof.
  unfold generateTile.
  destruct (tileRegion originalWidth originalHeight tileSize level x y) as [reg|] eqn:Hreg.
  - unfold bind, fs_mkdir_for, sharp_tile.
    assert (Hsize : rwidth reg = Z.min tileSize
                      (scaledWidth originalWidth originalHeight tileSize level - x * tileSize)
                    /\ rheight reg = Z.min tileSize
                      (scaledHeight originalWidth originalHeight tileSize level - y * tileSize)).
    { unfold tileRegion in Hreg. cbv zeta in Hreg.
      destruct (_ || _); [discriminate|]. injection Hreg as <-. split; reflexivity. }
    destruct Hsize as [-> ->].
    destruct (mkdir_fails host outputPath).
    + intros [= <- <-]. repeat split. { left. split; [reflexivity|discriminate]. }
      left. reflexivity.
    + destruct (toFile_fails host imagePath outputPath); intros [= <- <-]; cbn;
        repeat split.
      * left. split; [reflexivity|discriminate].
      * right. eexists. reflexivity.
      * right. split; reflexivity.
      * right. eexists. reflexivity.
  - intros [= <- <-]. repeat split. { left. split; [reflexivity|reflexivity]. }
    left. reflexivity.
Qed.

(** X10. A successful [generateTileOnDemand] leaves the image's metadata
    in the cache; when the tile lies inside its level the tile file exists
    afterwards; the only file the call can create is the requested tile,
    it removes none, and originals and temp directory are untouched. *)
Theorem generateTileOnDemand_postcondition (host : Host) (imageId : string)
    (level x y : Z) (w w' : World) (p : tilePath) :
  generateTileOnDemand host imageId level x y w = (Returned p, w') ->
  p = tilePathOf imageId level x y /\
  (exists metadata,
      metadataCache w' !! imageId = Some metadata /\
      (tileRegion (Metadata.width metadata) (Metadata.height metadata) 256
         level x y <> None -> p ∈ tilesDir w')) /\
  (tilesDir w' = tilesDir w \/ tilesDir w' = {[p]} ∪ tilesDir w) /\
  originalDir w' = originalDir w /\ tempDir w' = tempDir w.
Proof.
  rewrite generateTileOnDemand_eq.
  destruct (findImageFile_pure host imageId (originalDir w)) as [e|imagePath];
    [discriminate|].
  destruct (getCachedMetadata imageId imagePath w) as [[e|metadata] w1] eqn:Hmd;
    [discriminate|].
  apply getCachedMetadata_effect in Hmd as (Ho & Ht & Hti & Hc & _ & _).
  specialize (Hc metadata eq_refl).
  destruct (decide (tilePathOf imageId level x y ∈ tilesDir w1)) as [Hin|Hn].
  - intros [= <- <-]. split; [reflexivity|]. split.
    + exists metadata. split; [exact Hc|]. intros _. exact Hin.
    + split; [left; exact Hti|]. split; assumption.
  - destruct (generateTile host imagePath (tilePathOf imageId level x y) level x y 256
                (Metadata.width metadata) (Metadata.height metadata) w1)
      as [[e|r] w2] eqn:Hgen; [discriminate|].
    intros [= <- <-]. split; [reflexivity|].
    apply generateTile_effect in Hgen as (Ho2 & Ht2 & Hc2 & Htiles & _).
    split.
    + exists metadata. split; [rewrite Hc2; exact Hc|].
      intros Hreg. destruct Htiles as [[_ Hnone]|[Hadd _]].
      * exfalso. apply Hreg. apply (Hnone r). reflexivity.
      * rewrite Hadd. apply elem_of_union. left. apply elem_of_singleton. reflexivity.
    + split.
      * destruct Htiles as [[Hsame _]|[Hadd _]].
        -- left. congruence.
        -- right. congruence.
      * split; congruence.
Qed.

Lemma generateTileOnDemand_postcondition_witness :
  exists w',
    generateTileOnDemand quiet_host "img" 6 0 0 world_one_image =
      (Returned ("img", "6", "0_0.jpg"), w') /\
    (tilesDir w' = tilesDir world_one_image \/
     tilesDir w' = {[("img", "6", "0_0.jpg")]} ∪ tilesDir world_one_image).
Proof.
  eexists. split; [vm_compute; reflexivity|].
  eapply (generateTileOnDemand_postcondition quiet_host "img" 6 0 0 world_one_image).
  vm_compute. reflexivity.
Defined.

(** X11. The metadata cache only grows: an entry present before a call of
    [generateTileOnDemand], for any image id, is still there with the same
    value afterwards, whether the call succeeds or fails. *)
Theorem generateTileOnDemand_keeps_cache_entries (host : Host) (imageId : string)
    (level x y : Z) (w w' : World) (r : outcome tilePath)
    (id : string) (metadata : Metadata.t) :
  generateTileOnDemand host imageId level x y w = (r, w') ->
  metadataCache w !! id = Some metadata ->
  metadataCache w' !! id = Some metadata.
Proof.
  rewrite generateTileOnDemand_eq. intros Hrun Hid.
  destruct (findImageFile_pure host imageId (originalDir w)) as [e|imagePath].
  { injection Hrun as _ <-. exact Hid. }
  destruct (getCachedMetadata imageId imagePath w) as [[e|md] w1] eqn:Hmd;
    apply getCachedMetadata_effect in Hmd as (_ & _ & _ & _ & Hkeep & _).
  { injection Hrun as _ <-. apply Hkeep. exact Hid. }
  destruct (decide (tilePathOf imageId level x y ∈ tilesDir w1)).
  { injection Hrun as _ <-. apply Hkeep. exact Hid. }
  destruct (generateTile host imagePath (tilePathOf imageId level x y) level x y 256
              (Metadata.width md) (Metadata.height md) w1) as [[e|r2] w2] eqn:Hgen;
    apply generateTile_effect in Hgen as (_ & _ & Hc2 & _);
    injection Hrun as _ <-; rewrite Hc2; apply Hkeep; exact Hid.
Qed.

Lemma generateTileOnDemand_keeps_cache_entries_witness :
  exists r w',
    generateTileOnDemand quiet_host "img" 0 1 0 world_tile_cached = (r, w') /\
    metadataCache w' !! "img" =
      Some (Metadata.mk 10000 8000 "tiff" "srgb" 3 "uchar" false 1).
Proof.
  eexists. eexists. split; [vm_compute; reflexivity|].
  eapply (generateTileOnDemand_keeps_cache_entries quiet_host "img" 0 1 0
            world_tile_cached).
  - vm_compute. reflexivity.
  - vm_compute. reflexivity.
Defined.

(** X12. One call of [generateTileOnDemand] calls sharp at most twice, in
    this order: at most once for the metadata, only when the image id is
    not in the metadata cache, and at most once to render, only when the
    tile file does not exist yet. *)
Theorem generateTileOnDemand_sharp_calls (host : Host) (imageId : string)
    (level x y : Z) (w w' : World) (r : outcome tilePath) :
  generateTileOnDemand host imageId level x y w = (r, w') ->
  exists probes renders,
    sharpCalls w' = sharpCalls w ++ probes ++ renders /\
    (probes = [] \/
     (metadataCache w !! imageId = None /\
      exists imagePath, probes = [MetadataCall imagePath])) /\
    (renders = [] \/
     ((tilePathOf imageId level x y ∉ tilesDir w) /\
      exists imagePath reg rw rh,
        renders = [TileCall imagePath reg rw rh (tilePathOf imageId level x y)])).
Proof.
  rewrite generateTileOnDemand_eq. intros Hrun.
  destruct (findImageFile_pure host imageId (originalDir w)) as [e|imagePath].
  { injection Hrun as _ <-. exists [], []. rewrite !app_nil_r. tauto. }
  destruct (getCachedMetadata imageId imagePath w) as [[e|md] w1] eqn:Hmd;
    apply getCachedMetadata_effect in Hmd as (_ & _ & Hti & _ & _ & Hcalls).
  { injection Hrun as _ <-.
    destruct Hcalls as [[_ Hc]|[Hnone Hc]].
    - exists [], []. rewrite Hc, !app_nil_r. tauto.
    - exists [MetadataCall imagePath], []. rewrite Hc, app_nil_r.
      split; [reflexivity|]. split; [right; split; [exact Hnone|eexists; reflexivity]|tauto]. }
  assert (Hprobe : exists probes,
             sharpCalls w1 = sharpCalls w ++ probes /\
             (probes = [] \/
              (metadataCache w !! imageId = None /\
               exists imagePath, probes = [MetadataCall imagePath]))).
  { destruct Hcalls as [[_ Hc]|[Hnone Hc]].
    - exists []. rewrite Hc, app_nil_r. tauto.
    - exists [MetadataCall imagePath]. split; [exact Hc|].
      right. split; [exact Hnone|eexists; reflexivity]. }
  destruct Hprobe as (probes & Hp & Hprobes).
  destruct (decide (tilePathOf imageId level x y ∈ tilesDir w1)) as [Hin|Hn].
  { injection Hrun as _ <-. exists probes, []. rewrite Hp, app_nil_r. tauto. }
  destruct (generateTile host imagePath (tilePathOf imageId level x y) level x y 256
              (Metadata.width md) (Metadata.height md) w1) as [[e|r2] w2] eqn:Hgen;
    apply generateTile_effect in Hgen as (_ & _ & _ & _ & Hr);
    injection Hrun as _ <-;
    (destruct Hr as [Hr|(reg & Hr)];
     [exists probes, []; rewrite Hr, Hp, app_nil_r; tauto
     |exists probes; eexists; rewrite Hr, Hp; split; [rewrite <- app_assoc; reflexivity|];
      split; [exact Hprobes|]; right; split;
      [rewrite <- Hti; exact Hn|repeat eexists]]).
Qed.

Lemma generateTileOnDemand_sharp_calls_witness :
  exists r w',
    generateTileOnDemand quiet_host "img" 6 0 0 world_one_image = (r, w') /\
    exists probes renders,
      sharpCalls w' = sharpCalls world_one_image ++ probes ++ renders /\
      (probes = [] \/
       (metadataCache world_one_image !! "img" = None /\
        exists imagePath, probes = [MetadataCall imagePath])) /\
      (renders = [] \/
       ((tilePathOf "img" 6 0 0 ∉ tilesDir world_one_image) /\
        exists imagePath reg rw rh,
          renders = [TileCall imagePath reg rw rh (tilePathOf "img" 6 0 0)])).
Proof.
  eexists. eexists. split; [vm_compute; reflexivity|].
  eapply (generateTileOnDemand_sharp_calls quiet_host "img" 6 0 0 world_one_image).
  vm_compute. reflexivity.
Defined.

(** ** More on uploads *)

Lemma lookup_entry_replaced (dir : directory) (name : string) (e : entry) :
  lookup_entry (remove_entry dir name ++ [(name, e)]) name = Some e.
Proof.
  unfold lookup_entry, remove_entry.
  induction dir as [|[n e'] dir IH]; cbn.
  - rewrite String.eqb_refl. reflexivity.
  - destruct (String.eqb_spec n name) as [->|Hne]; cbn; [exact IH|].
    destruct (String.eqb_spec n name) as [E|_]; [contradiction|]. exact IH.
Qed.

Lemma dir_of_set_dir (d : dirname) (dir : directory) (w : World) :
  dir_of (set_dir d dir w) d = dir.
Proof. destruct d; reflexivity. Qed.

(** What a successful [fs.rename] leaves behind. *)
Lemma fs_rename_moved (host : Host) (src dst : path) (w w' : World) :
  fs_rename host src dst w = (Returned tt, w') ->
  exists e,
    read_entry w src = Some e /\ read_entry w' dst = Some e /\
    tilesDir w' = tilesDir w /\ metadataCache w' = metadataCache w /\
    sharpCalls w' = sharpCalls w /\
    (pdir src = temp -> pdir dst = original ->
     originalDir w' = remove_entry (originalDir w) (pname dst) ++ [(pname dst, e)]).
Proof.
  unfold fs_rename.
  destruct (rename_fails host src dst); [discriminate|].
  destruct (read_entry w src) as [e|] eqn:Hsrc; [|discriminate].
  intros [= <-]. exists e. split; [reflexivity|].
  split.
  { unfold read_entry. rewrite dir_of_set_dir. apply lookup_entry_replaced. }
  destruct src as [[|] sn], dst as [[|] dn]; cbn; repeat split; try discriminate.
Qed.

(** X13. A successful [processUpload] has read the uploaded file once
    through sharp, reports that file's width, height and format with the
    level count [calculateLevels] gives for 256-pixel tiles, and has stored
    the file in the originals under the image id followed by the extension
    of the uploaded name.  It neither fills the metadata cache nor touches
    the tile tree. *)
Theorem processUpload_success (host : Host) (imageId : string)
    (originalPath : path) (w w' : World) (info : ImageInfo.t) :
  processUpload host imageId originalPath w = (Returned info, w') ->
  exists raw,
    read_entry w originalPath = Some (File (Some raw)) /\
    info = ImageInfo.mk imageId
             (SharpMetadata.width raw) (SharpMetadata.height raw) 256 "jpeg"
             (calculateLevels (SharpMetadata.width raw) (SharpMetadata.height raw) 256)
             (SharpMetadata.format raw) (now host) /\
    read_entry w' (mkPath original (imageId +:+ extname (pname originalPath)))
      = Some (File (Some raw)) /\
    metadataCache w' = metadataCache w /\ tilesDir w' = tilesDir w /\
    sharpCalls w' = sharpCalls w ++ [MetadataCall originalPath].
Proof.
  rewrite processUpload_eq.
  destruct (read_entry w originalPath) as [[[raw|]|]|] eqn:Hread; try discriminate.
  set (newPath := mkPath original (imageId +:+ extname (pname originalPath))).
  set (w0 := log_call (MetadataCall originalPath) w).
  unfold bind at 1.
  destruct (fs_rename host originalPath newPath w0) as [[e|u] w1] eqn:Hmv;
    [discriminate|]. destruct u.
  unfold bind at 1.
  destruct (cleanTemp_returns host w1) as (w2 & Hclean & Ho & Hti & Hc & Hs).
  rewrite Hclean. intros [= <- <-].
  apply fs_rename_moved in Hmv as (e & Hsrc & Hdst & Hti1 & Hc1 & Hs1 & _).
  change (read_entry w0 originalPath) with (read_entry w originalPath) in Hsrc.
  rewrite Hread in Hsrc. injection Hsrc as <-.
  exists raw. split; [reflexivity|]. split; [reflexivity|]. split.
  { unfold read_entry in *. cbn [pdir pname dir_of newPath] in *.
    rewrite Ho. exact Hdst. }
  split; [rewrite Hc, Hc1; reflexivity|]. split; [rewrite Hti, Hti1; reflexivity|].
  rewrite Hs, Hs1. reflexivity.
Qed.

Lemma processUpload_success_witness :
  exists info w',
    processUpload quiet_host "u1" (mkPath temp "up.tif") world_pending_uploads =
      (Returned info, w') /\
    read_entry w' (mkPath original "u1.tif") = Some (File (Some tiff_10000_8000)) /\
    ImageInfo.levels info = 7.
Proof.
  eexists. eexists. split; [vm_compute; reflexivity|].
  destruct (processUpload_success quiet_host "u1" (mkPath temp "up.tif")
              world_pending_uploads _ _ ltac:(vm_compute; reflexivity))
    as (raw & Hread & Hinfo & Hstored & _).
  vm_compute in Hread. injection Hread as <-.
  split; [exact Hstored|reflexivity].
Defined.

Lemma find_app_last {A} (f : A -> bool) (l : list A) (a : A) :
  (forall b, In b l -> f b = false) -> f a = true ->
  List.find f (l ++ [a]) = Some a.
Proof.
  induction l as [|b l IH]; intros Hl Ha; cbn.
  - rewrite Ha. reflexivity.
  - rewrite (Hl b (or_introl eq_refl)). apply IH; auto with datatypes.
Qed.

(** X14. After a successful [processUpload], looking the image up by its
    id does not fail (the directory listing permitting); and when no
    earlier original had a name starting with the id, as for a fresh id,
    the lookup resolves to the file just stored. *)
Theorem processUpload_then_findImageFile (host : Host) (imageId : string)
    (originalPath : path) (w w' : World) (info : ImageInfo.t) :
  processUpload host imageId originalPath w = (Returned info, w') ->
  readdir_fails host original = false ->
  (exists imagePath, findImageFile host imageId w' = (Returned imagePath, w')) /\
  (pdir originalPath = temp ->
   (forall f, In f (List.map fst (originalDir w)) -> String.prefix imageId f = false) ->
   findImageFile host imageId w' =
     (Returned (mkPath original (imageId +:+ extname (pname originalPath))), w')).
Proof.
  intros Hrun Hrd.
  set (newName := imageId +:+ extname (pname originalPath)).
  assert (Hstored : exists e,
             read_entry w' (mkPath original newName) = Some e /\
             (pdir originalPath = temp ->
              originalDir w' = remove_entry (originalDir w) newName ++ [(newName, e)])).
  { rewrite processUpload_eq in Hrun.
    destruct (read_entry w originalPath) as [[[raw|]|]|]; try discriminate.
    fold newName in Hrun. unfold bind at 1 in Hrun.
    destruct (fs_rename host originalPath (mkPath original newName)
                (log_call (MetadataCall originalPath) w)) as [[e|u] w1] eqn:Hmv;
      [discriminate|]. destruct u.
    unfold bind at 1 in Hrun.
    destruct (cleanTemp_returns host w1) as (w2 & Hclean & Ho & _).
    rewrite Hclean in Hrun. injection Hrun as _ <-.
    apply fs_rename_moved in Hmv as (e & _ & Hdst & _ & _ & _ & Horig).
    exists e. split.
    - unfold read_entry in *. cbn [pdir pname dir_of] in *. rewrite Ho. exact Hdst.
    - intros Htemp. rewrite Ho. apply Horig; [exact Htemp|reflexivity]. }
  destruct Hstored as (e & Hnew & Horig).
  unfold read_entry in Hnew. cbn [pdir pname dir_of] in Hnew.
  pose proof (lookup_entry_Some_name _ _ _ Hnew) as Hin.
  pose proof (prefix_append imageId (extname (pname originalPath))) as Hpre.
  fold newName in Hpre.
  rewrite findImageFile_eq. unfold findImageFile_pure. rewrite Hrd.
  split.
  - destruct (lookup_entry (originalDir w') (imageId +:+ ".tif")); [eexists; reflexivity|].
    destruct (List.find (fun f => String.prefix imageId f)
                (List.map fst (originalDir w'))) as [f|] eqn:Hfind;
      [eexists; reflexivity|].
    rewrite (find_none _ _ Hfind newName Hin) in Hpre. discriminate.
  - intros Htemp Hfresh. specialize (Horig Htemp).
    assert (Hold : forall f, In f (List.map fst (remove_entry (originalDir w) newName)) ->
                             String.prefix imageId f = false).
    { intros f Hf. apply remove_entry_names in Hf as [_ Hf]. apply Hfresh. exact Hf. }
    destruct (lookup_entry (originalDir w') (imageId +:+ ".tif")) as [e'|] eqn:Hex.
    + apply lookup_entry_Some_name in Hex. rewrite Horig, map_app in Hex.
      apply in_app_or in Hex as [Hex|[Hex|[]]].
      * pose proof (Hold _ Hex) as H. rewrite prefix_append in H. discriminate.
      * cbn in Hex. rewrite <- Hex. reflexivity.
    + assert (Hf : List.find (fun f => String.prefix imageId f)
                     (List.map fst (remove_entry (originalDir w) newName) ++ [newName])
                   = Some newName) by (apply find_app_last; assumption).
      rewrite Horig, map_app.
      change (List.map fst [(newName, e)]) with [newName].
      rewrite Hf. reflexivity.
Qed.

Lemma processUpload_then_findImageFile_witness :
  exists info w',
    processUpload quiet_host "u1" (mkPath temp "up.tif") world_pending_uploads =
      (Returned info, w') /\
    findImageFile quiet_host "u1" w' = (Returned (mkPath original "u1.tif"), w').
Proof.
  eexists. eexists. split; [vm_compute; reflexivity|].
  eapply (proj2 (processUpload_then_findImageFile quiet_host "u1" (mkPath temp "up.tif")
                   world_pending_uploads _ _ ltac:(vm_compute; reflexivity) eq_refl)).
  - reflexivity.
  - intros f [].
Defined.

(** ** Listing the originals *)

Lemma log_calls_nil (w : World) : log_calls [] w = w.
Proof. destruct w. unfold log_calls. cbn. rewrite app_nil_r. reflexivity. Qed.

Lemma log_calls_app (c1 c2 : list SharpCall) (w : World) :
  log_calls c2 (log_calls c1 w) = log_calls (c1 ++ c2) w.
Proof. unfold log_calls. cbn. rewrite app_assoc. reflexivity. Qed.

Lemma omap_cons_match {A B} (f : A -> option B) (a : A) (l : list A) :
  omap f (a :: l) = match f a with Some b => [b] | None => [] end ++ omap f l.
Proof. cbn. destruct (f a); reflexivity. Qed.

Lemma listImages_step_eq (host : Host) (birthtime : path -> string)
    (file : string) (images : list ImageRecord.t) (w : World) :
  listImages_step host birthtime file images w =
  (Returned (images ++
             match listed_record host birthtime (originalDir w) file with
             | Some r => [r]
             | None => []
             end),
   log_calls (listing_calls [file]) w).
Proof.
  unfold listImages_step, listed_record, listing_calls. cbn [List.filter].
  destruct (String.prefix "." file); cbn [negb List.map].
  - rewrite log_calls_nil, app_nil_r. reflexivity.
  - unfold try_catch, bind at 1, getImageMetadata, bind at 1, sharp_metadata, read_entry.
    cbn [pdir pname dir_of].
    change (log_call (MetadataCall (mkPath original file)) w)
      with (log_calls [MetadataCall (mkPath original file)] w).
    destruct (lookup_entry (originalDir w) file) as [[[raw|]|]|] eqn:Hl;
      try (rewrite app_nil_r; reflexivity).
    unfold ret, bind, fs_stat, read_entry. cbn [pdir pname dir_of log_calls originalDir].
    destruct (stat_fails host (mkPath original file)).
    + rewrite app_nil_r. reflexivity.
    + rewrite Hl. reflexivity.
Qed.

Lemma for_of_with_listImages (host : Host) (birthtime : path -> string)
    (files : list string) (images : list ImageRecord.t) (w : World) :
  for_of_with files images (listImages_step host birthtime) w =
  (Returned (images ++ omap (listed_record host birthtime (originalDir w)) files),
   log_calls (listing_calls files) w).
Proof.
  revert images w. induction files as [|file files IH]; intros images w.
  - cbn. rewrite app_nil_r, log_calls_nil. reflexivity.
  - cbn [for_of_with]. unfold bind at 1. rewrite listImages_step_eq, IH.
    rewrite log_calls_app. cbn [originalDir log_calls].
    f_equal.
    + f_equal. rewrite omap_cons_match.
      destruct (listed_record host birthtime (originalDir w) file);
        rewrite <- app_assoc; reflexivity.
    + f_equal. unfold listing_calls. cbn [List.filter].
      destruct (negb (String.prefix "." file)); reflexivity.
Qed.

Lemma listImages_eq (host : Host) (birthtime : path -> string) (w : World) :
  listImages host birthtime w =
  if readdir_fails host original then (Returned [], w)
  else (Returned (omap (listed_record host birthtime (originalDir w))
                    (List.map fst (originalDir w))),
        log_calls (listing_calls (List.map fst (originalDir w))) w).
Proof.
  unfold listImages, try_catch, bind, fs_readdir.
  destruct (readdir_fails host original); [reflexivity|].
  cbn [dir_of]. rewrite for_of_with_listImages. reflexivity.
Qed.

(** X15. [listImages] never fails: when the originals cannot be listed it
    returns the empty array and changes nothing; otherwise it asks sharp
    for the metadata of every entry whose name does not start with a dot,
    on every call, without reading or filling the metadata cache, and
    leaves files and tiles as they were. *)
Theorem listImages_never_fails (host : Host) (birthtime : path -> string) (w : World) :
  exists images w',
    listImages host birthtime w = (Returned images, w') /\
    originalDir w' = originalDir w /\ tempDir w' = tempDir w /\
    tilesDir w' = tilesDir w /\ metadataCache w' = metadataCache w /\
    (if readdir_fails host original
     then images = [] /\ sharpCalls w' = sharpCalls w
     else sharpCalls w' =
          sharpCalls w ++ listing_calls (List.map fst (originalDir w))).
Proof.
  rewrite listImages_eq.
  destruct (readdir_fails host original); eexists; eexists;
    (split; [reflexivity|]); cbn; repeat split.
Qed.

(** X16. When the originals can be listed, the listing holds a record for
    a file exactly when the file's name does not start with a dot, sharp
    reads the file and [fs.stat] succeeds on it; the record carries the
    file name without its extension as id and the file's width, height and
    format. *)
Theorem listImages_records (host : Host) (birthtime : path -> string)
    (w w' : World) (images : list ImageRecord.t) (r : ImageRecord.t) :
  readdir_fails host original = false ->
  listImages host birthtime w = (Returned images, w') ->
  (In r images <->
   exists file raw,
     In file (List.map fst (originalDir w)) /\
     String.prefix "." file = false /\
     read_entry w (mkPath original file) = Some (File (Some raw)) /\
     stat_fails host (mkPath original file) = false /\
     r = ImageRecord.mk (parse_name file)
           (SharpMetadata.width raw) (SharpMetadata.height raw)
           (SharpMetadata.format raw) (birthtime (mkPath original file))).
Proof.
  intros Hrd. rewrite listImages_eq, Hrd. intros [= <- _].
  rewrite <- list_elem_of_In, list_elem_of_omap.
  unfold read_entry. cbn [pdir pname dir_of].
  split.
  - intros (file & Hin & Hrec). apply list_elem_of_In in Hin.
    unfold listed_record in Hrec.
    destruct (String.prefix "." file) eqn:Hdot; [discriminate|].
    destruct (lookup_entry (originalDir w) file) as [[[raw|]|]|] eqn:Hl; try discriminate.
    destruct (stat_fails host (mkPath original file)) eqn:Hstat; [discriminate|].
    injection Hrec as <-. exists file, raw. repeat split; try assumption; reflexivity.
  - intros (file & raw & Hin & Hdot & Hread & Hstat & ->).
    exists file. split; [apply list_elem_of_In; exact Hin|].
    unfold listed_record. rewrite Hdot, Hread, Hstat. reflexivity.
Qed.

Lemma listImages_records_witness :
  exists images w',
    listImages quiet_host pname world_tiff_extension = (Returned images, w') /\
    In (ImageRecord.mk "pic" 10000 8000 "tiff" "pic.tiff") images.
Proof.
  eexists. eexists. split; [vm_compute; reflexivity|].
  apply (proj2 (listImages_records quiet_host pname world_tiff_extension
                  _ _ _ eq_refl ltac:(vm_compute; reflexivity))).
  exists "pic.tiff", tiff_10000_8000.
  split; [right; left; reflexivity|]. repeat split.
Defined.

(** ** File names *)

Lemma append_cons (c : Ascii.ascii) (s t : string) :
  String c s +:+ t = String c (s +:+ t).
Proof. reflexivity. Qed.

Lemma append_nil_l (t : string) : "" +:+ t = t.
Proof. reflexivity. Qed.

Lemma append_nil_r (s : string) : s +:+ "" = s.
Proof.
  induction s as [|c s IH]; [reflexivity|]. rewrite append_cons. f_equal. exact IH.
Qed.

Lemma length_append (s t : string) :
  String.length (s +:+ t) = (String.length s + String.length t)%nat.
Proof.
  induction s as [|c s IH]; [reflexivity|]. rewrite append_cons. cbn. f_equal. exact IH.
Qed.

Lemma substring_0_append (s t : string) :
  String.substring 0 (String.length s) (s +:+ t) = s.
Proof.
  induction s as [|c s IH]; [destruct t; reflexivity|].
  rewrite append_cons. cbn. f_equal. exact IH.
Qed.

Lemma substring_0_all (s : string) : String.substring 0 (String.length s) s = s.
Proof. induction s as [|c s IH]; cbn; [reflexivity|]. f_equal. exact IH. Qed.

Lemma substring_skip_append (s t : string) (n : nat) :
  String.substring (String.length s) n (s +:+ t) = String.substring 0 n t.
Proof.
  induction s as [|c s IH]; [reflexivity|]. rewrite append_cons. cbn. exact IH.
Qed.

Lemma last_dot_no_dot (s : string) (i : nat) (acc : option nat) :
  no_dot s = true -> last_dot s i acc = acc.
Proof.
  revert i acc. induction s as [|c s IH]; intros i acc H; cbn in *; [reflexivity|].
  apply andb_prop in H as [Hc Hs]. apply negb_true_iff in Hc. rewrite Hc.
  apply IH. exact Hs.
Qed.

Lemma last_dot_append (s t : string) (i : nat) (acc : option nat) :
  last_dot (s +:+ t) i acc = last_dot t (i + String.length s) (last_dot s i acc).
Proof.
  revert i acc. induction s as [|c s IH]; intros i acc.
  - rewrite append_nil_l. cbn. rewrite Nat.add_0_r. reflexivity.
  - rewrite append_cons. cbn. rewrite IH. f_equal. lia.
Qed.

(** Where [last_dot] finds a dot, the string splits there and no dot
    follows. *)
Lemma last_dot_Some (s : string) (i j : nat) (acc : option nat) :
  last_dot s i acc = Some j ->
  (acc = Some j /\ no_dot s = true) \/
  (exists pre rest,
      s = pre +:+ String (Ascii.ascii_of_nat 46) rest /\
      j = (i + String.length pre)%nat /\ no_dot rest = true).
Proof.
  revert i acc. induction s as [|c s IH]; intros i acc H; cbn in H.
  - left. split; [exact H|reflexivity].
  - apply IH in H as [[Hacc Hs]|(pre & rest & -> & -> & Hrest)].
    + destruct (Ascii.eqb_spec c (Ascii.ascii_of_nat 46)) as [->|Hc].
      * right. exists "", s. injection Hacc as <-. cbn.
        split; [reflexivity|]. split; [lia|exact Hs].
      * left. split; [exact Hacc|]. cbn.
        destruct (Ascii.eqb_spec c (Ascii.ascii_of_nat 46)); [contradiction|exact Hs].
    + right. exists (String c pre), rest. cbn.
      split; [reflexivity|]. split; [lia|exact Hrest].
Qed.

(** [path.extname] yields nothing or a dot followed by a dot-free rest. *)
Lemma extname_shape (name : string) :
  extname name = "" \/
  exists rest, extname name = String (Ascii.ascii_of_nat 46) rest /\ no_dot rest = true.
Proof.
  unfold extname.
  destruct (last_dot name 0 None) as [[|i]|] eqn:Hl; [left; reflexivity| |left; reflexivity].
  destruct (String.eqb name ".."); [left; reflexivity|].
  apply last_dot_Some in Hl as [[H _]|(pre & rest & -> & Hi & Hrest)]; [discriminate|].
  right. exists rest. split; [|exact Hrest].
  cbn in Hi. rewrite Hi, length_append, substring_skip_append.
  replace (String.length pre + String.length (String (Ascii.ascii_of_nat 46) rest)
           - String.length pre)%nat
    with (String.length (String (Ascii.ascii_of_nat 46) rest)) by lia.
  apply substring_0_all.
Qed.

(** An id without dots comes back from its stored file name. *)
Lemma parse_name_stored (imageId name : string) :
  imageId <> "" -> no_dot imageId = true ->
  parse_name (imageId +:+ extname name) = imageId /\
  String.prefix "." (imageId +:+ extname name) = false.
Proof.
  intros Hne Hnd.
  assert (Hfirst : String.prefix "." (imageId +:+ extname name) = false).
  { destruct imageId as [|c s]; [contradiction|]. cbn in Hnd.
    apply andb_prop in Hnd as [Hc _]. apply negb_true_iff in Hc.
    rewrite append_cons. cbn [String.prefix].
    destruct (Ascii.ascii_dec _ c) as [E|_]; [|reflexivity].
    rewrite <- E in Hc. discriminate Hc. }
  split; [|exact Hfirst].
  unfold parse_name.
  destruct (extname_shape name) as [Hext|(rest & Hext & Hrest)]; rewrite Hext in *.
  - rewrite append_nil_r, (last_dot_no_dot _ _ _ Hnd). reflexivity.
  - rewrite last_dot_append, (last_dot_no_dot _ _ _ Hnd).
    cbn [last_dot]. rewrite Ascii.eqb_refl, (last_dot_no_dot _ _ _ Hrest).
    cbn [Nat.add].
    destruct (String.length imageId) as [|n] eqn:Hlen.
    { destruct imageId; [contradiction|discriminate]. }
    destruct (String.eqb_spec (imageId +:+ String (Ascii.ascii_of_nat 46) rest) "..")
      as [E|_].
    + assert (H : String.prefix "." ".." = false) by (rewrite <- E; exact Hfirst).
      discriminate H.
    + rewrite <- Hlen. apply substring_0_append.
Qed.

(** X17. After a successful [processUpload] under a non-empty image id
    without dots, a listing of the originals (with the directory listing
    and [fs.stat] of the stored file succeeding) contains a record with
    that id and the width, height and original format reported by the
    upload. *)
Theorem processUpload_then_listImages (host : Host) (birthtime : path -> string)
    (imageId : string) (originalPath : path) (w w1 w2 : World)
    (info : ImageInfo.t) (images : list ImageRecord.t) :
  imageId <> "" -> no_dot imageId = true ->
  readdir_fails host original = false ->
  stat_fails host (mkPath original (imageId +:+ extname (pname originalPath))) = false ->
  processUpload host imageId originalPath w = (Returned info, w1) ->
  listImages host birthtime w1 = (Returned images, w2) ->
  In (ImageRecord.mk imageId (ImageInfo.width info) (ImageInfo.height info)
        (ImageInfo.originalFormat info)
        (birthtime (mkPath original (imageId +:+ extname (pname originalPath)))))
     images.
Proof.
  intros Hne Hnd Hrd Hstat Hup Hlist.
  set (newName := imageId +:+ extname (pname originalPath)) in *.
  destruct (parse_name_stored imageId (pname originalPath) Hne Hnd) as [Hparse Hdot].
  fold newName in Hparse, Hdot.
  assert (Hstored : exists raw,
             lookup_entry (originalDir w1) newName = Some (File (Some raw)) /\
             ImageInfo.width info = SharpMetadata.width raw /\
             ImageInfo.height info = SharpMetadata.height raw /\
             ImageInfo.originalFormat info = SharpMetadata.format raw).
  { rewrite processUpload_eq in Hup.
    destruct (read_entry w originalPath) as [[[raw|]|]|] eqn:Hread; try discriminate.
    fold newName in Hup. unfold bind at 1 in Hup.
    destruct (fs_rename host originalPath (mkPath original newName)
                (log_call (MetadataCall originalPath) w)) as [[e|u] wm] eqn:Hmv;
      [discriminate|]. destruct u.
    unfold bind at 1 in Hup.
    destruct (cleanTemp_returns host wm) as (wc & Hclean & Ho & _).
    rewrite Hclean in Hup. injection Hup as <- <-.
    apply fs_rename_moved in Hmv as (e & Hsrc & Hdst & _).
    change (read_entry (log_call (MetadataCall originalPath) w) originalPath)
      with (read_entry w originalPath) in Hsrc.
    rewrite Hread in Hsrc. injection Hsrc as <-.
    exists raw. unfold read_entry in Hdst. cbn [pdir pname dir_of] in Hdst.
    rewrite Ho. repeat split. exact Hdst. }
  destruct Hstored as (raw & Hlook & -> & -> & ->).
  rewrite listImages_eq, Hrd in Hlist. injection Hlist as <- _.
  apply list_elem_of_In, list_elem_of_omap.
  exists newName. split.
  - apply list_elem_of_In. eapply lookup_entry_Some_name. exact Hlook.
  - unfold listed_record. rewrite Hdot, Hlook, Hstat, Hparse. reflexivity.
Qed.

Lemma processUpload_then_listImages_witness :
  exists info w1 images w2,
    processUpload quiet_host "u1" (mkPath temp "up.tif") world_pending_uploads =
      (Returned info, w1) /\
    listImages quiet_host pname w1 = (Returned images, w2) /\
    In (ImageRecord.mk "u1" 10000 8000 "tiff" "u1.tif") images.
Proof.
  eexists. eexists. eexists. eexists.
  split; [vm_compute; reflexivity|]. split; [vm_compute; reflexivity|].
  apply (processUpload_then_listImages quiet_host pname "u1" (mkPath temp "up.tif")
           world_pending_uploads _ _ _ _
           ltac:(discriminate) eq_refl eq_refl eq_refl
           ltac:(vm_compute; reflexivity) ltac:(vm_compute; reflexivity)).
Defined.

(** ** The tile route: names and coordinates *)





Lemma span_digits_all (s digits rest : string) :
  span_digits s = (digits, rest) -> all_digits digits = true.
Proof.
  revert digits rest. induction s as [|c s IH]; intros digits rest; cbn.
  - intros [= <- _]. reflexivity.
  - destruct (is_digit c) eqn:Hc.
    + destruct (span_digits s) as [d r]. intros [= <- _]. cbn.
      rewrite Hc. apply (IH d r). reflexivity.
    + intros [= <- _]. reflexivity.
Qed.

Lemma parseInt_digits_nonneg (acc : Z) (digits : string) :
  0 <= acc -> all_digits digits = true -> 0 <= parseInt_digits acc digits.
Proof.
  revert acc. induction digits as [|c digits IH]; intros acc Hacc Hd; cbn in *;
    [exact Hacc|].
  apply andb_prop in Hd as [Hc Hd]. apply IH; [|exact Hd].
  unfold is_digit in Hc. apply andb_prop in Hc as [Hlo _].
  apply Nat.leb_le in Hlo. lia.
Qed.





(** X18. The route recovers the image id from the segment it is given:
    for every image id, stripping [imageId_files] yields [imageId], also
    when the id itself ends in [_files]. *)
Theorem stripFilesSuffix_round_trip (imageId : string) :
  stripFilesSuffix (imageId +:+ "_files") = imageId.
Proof.
  unfold stripFilesSuffix. rewrite length_append.
  change (String.length "_files") with 6%nat.
  replace (String.length imageId + 6 - 6)%nat with (String.length imageId) by lia.
  rewrite substring_skip_append, substring_0_append.
  destruct (Nat.leb_spec 6 (String.length imageId + 6)) as [_|H]; [|lia].
  reflexivity.
Qed.



(** X20. Every tile name the route accepts yields non-negative
    coordinates: no request reaches [generateTileOnDemand] with a negative
    x or y. *)
Theorem parseTileName_nonneg (tile : string) (x y : Z) :
  parseTileName tile = Some (x, y) -> 0 <= x /\ 0 <= y.
Proof.
  unfold parseTileName.
  destruct (span_digits tile) as [xs after_x] eqn:Hxs.
  destruct xs as [|cx xs]; [discriminate|].
  destruct after_x as [|sep after_sep]; [discriminate|].
  destruct (Ascii.eqb sep (Ascii.ascii_of_nat 95)); [|discriminate].
  destruct (span_digits after_sep) as [ys suffix] eqn:Hys.
  destruct ys as [|cy ys]; [discriminate|].
  destruct (String.eqb suffix ".jpg" || String.eqb suffix ".jpeg"); [|discriminate].
  apply span_digits_all in Hxs. apply span_digits_all in Hys.
  pose proof (parseInt_digits_nonneg 0 _ (Z.le_refl 0) Hxs) as Hx0.
  pose proof (parseInt_digits_nonneg 0 _ (Z.le_refl 0) Hys) as Hy0.
  intros [= <- <-]. split; [exact Hx0|exact Hy0].
Qed.

Lemma parseTileName_nonneg_witness :
  parseTileName "12_3.jpg" = Some (12, 3) /\ 0 <= 12 /\ 0 <= 3.
Proof.
  split; [reflexivity|].
  apply (parseTileName_nonneg "12_3.jpg" 12 3). reflexivity.
Defined.


